(** * Convex hull widget: Graham scan and brute-force hull

    A shallow embedding of [ConvexHull/drawingwidget.cpp].

    Modelling choices.
    - A [double] coordinate is a rational number and arithmetic on it is
      exact: the development speaks about the algorithms, not about
      rounding.  On inputs whose intermediate values are representable
      (small integers, exact divisions) the two coincide.
    - [int] indices and sizes are natural numbers.
    - A [qint64] counter is an integer; [++iterations] wraps at 64 bits.
    - A reference parameter is passed in and handed back.
    - A [QVector] that only grows and shrinks at its end is kept as a list
      with its last element at the head while it is being built, and
      reversed when it is read by position.
    - [std::set] is a strictly increasing list.
    - [std::sort] is the insertion sort that the C++ standard library runs
      on short ranges (at most 16 elements in libstdc++); it leaves
      elements that compare equal in their order.  The general statements
      below only use that it returns a permutation.
    - A value of [std::atan2] is kept as the vector it is the angle of;
      the comparison of two such values is exact and is shown to agree
      with the order of the real angles ([angle_ltb_atan2]). *)

From Stdlib Require Import QArith Qabs ZArith List Bool Arith Lia Permutation Sorted.
From Stdlib Require Import Lqa Reals Qreals Lra.
Import ListNotations.

(** ** Points and geometry primitives *)

Record QPointF : Type := mkPoint { px : Q; py : Q }.

Definition origin : QPointF := mkPoint 0 0.

(** [x < y] on coordinates. *)
Definition Qltb (x y : Q) : bool := negb (Qle_bool y x).

(** The literal [1e-9]. *)
Definition eps : Q := 1 # 1000000000.

Definition cross (o a b : QPointF) : Q :=
  (px a - px o) * (py b - py o) - (py a - py o) * (px b - px o).

Definition crossVec (a b : QPointF) : Q :=
  px a * py b - py a * px b.

Definition dist2 (a b : QPointF) : Q :=
  let dx := px a - px b in
  let dy := py a - py b in
  dx * dx + dy * dy.

Close Scope Q_scope.

(** [points[i]]; the loops of the source only read indices below
    [points.size()]. *)
Definition at_ (points : list QPointF) (i : nat) : QPointF := nth i points origin.

(** ** Counting monad: a computation that increments [iterations] *)

Definition qint64 : Type := Z.

Definition wrap64 (z : Z) : Z := ((z + 2 ^ 63) mod 2 ^ 64 - 2 ^ 63)%Z.

Definition Counted (A : Type) : Type := qint64 -> A * qint64.

Definition ret {A : Type} (a : A) : Counted A := fun c => (a, c).

Definition bind {A B : Type} (m : Counted A) (f : A -> Counted B) : Counted B :=
  fun c => let (a, c') := m c in f a c'.

(** [++iterations] *)
Definition tick : Counted unit := fun c => (tt, wrap64 (c + 1)).

Declare Scope counted_scope.
Delimit Scope counted_scope with counted.
Notation "x <- m ;; k" := (bind m (fun x => k))
  (at level 61, m at next level, right associativity) : counted_scope.
Notation "m ;; k" := (bind m (fun _ => k))
  (at level 61, right associativity) : counted_scope.
Open Scope counted_scope.

(** A [for] loop over the elements of [l], threading the loop state [s]. *)
Fixpoint for_each {A S : Type} (l : list A) (body : A -> S -> Counted S) (s : S)
  : Counted S :=
  match l with
  | [] => ret s
  | x :: l' => s' <- body x s ;; for_each l' body s'
  end.

(** ** std::sort *)

Section Sort.
Context {A : Type} (comp : A -> A -> Counted bool).

(** [__unguarded_linear_insert]: [val] moves towards the front past every
    element it compares before.  [before] lists the sorted elements from
    the one next to [val] back to the first. *)
Fixpoint unguarded_linear_insert (val : A) (before : list A) : Counted (list A) :=
  match before with
  | [] => ret [val]
  | next :: rest =>
      b <- comp val next ;;
      if b then (r <- unguarded_linear_insert val rest ;; ret (next :: r))
      else ret (val :: before)
  end.

(** One round of [__insertion_sort]: [sorted] is the sorted range
    [first, i) and [val] is [*i]. *)
Definition insertion_step (val : A) (sorted : list A) : Counted (list A) :=
  match sorted with
  | [] => ret [val]
  | first :: _ =>
      b <- comp val first ;;
      if b then ret (val :: sorted)
      else (r <- unguarded_linear_insert val (rev sorted) ;; ret (rev r))
  end.

Definition std_sort (l : list A) : Counted (list A) :=
  for_each l insertion_step [].
End Sort.

(** ** computeGrahamScan *)

Definition sub_pt (a o : QPointF) : QPointF := mkPoint (px a - px o) (py a - py o).

(** The test of the pivot loop: [points[i]] is below [points[pivot]], or
    level with it and to its left. *)
Definition below_left (p q : QPointF) : bool :=
  Qltb (py p) (py q) || (Qeq_bool (py p) (py q) && Qltb (px p) (px q)).

Definition pivot_step (points : list QPointF) (i pivot : nat) : Counted nat :=
  tick ;;
  ret (if below_left (at_ points i) (at_ points pivot) then i else pivot).

Definition find_pivot (points : list QPointF) : Counted nat :=
  for_each (seq 1 (length points - 1)) (pivot_step points) 0%nat.

(** The comparison lambda handed to [std::sort]. *)
Definition angle_comp (points : list QPointF) (pivot : nat) (p0 : QPointF)
  (a b : nat) : Counted bool :=
  if a =? pivot then ret true
  else if b =? pivot then ret false
  else
    let va := sub_pt (at_ points a) p0 in
    let vb := sub_pt (at_ points b) p0 in
    let cr := crossVec va vb in
    tick ;;
    if Qltb (Qabs cr) eps
    then ret (Qltb (dist2 p0 (at_ points a)) (dist2 p0 (at_ points b)))
    else ret (Qltb 0 cr).

(** One round of the loop that builds [filtered]; [filtered] has its last
    element at the head. *)
Definition filter_step (points : list QPointF) (pivot : nat) (p0 : QPointF)
  (x : nat) (filtered : list nat) : Counted (list nat) :=
  match filtered with
  | [] => ret [x]
  | last :: rest =>
      if x =? pivot then ret filtered
      else
        let A := at_ points last in
        let B := at_ points x in
        let VA := sub_pt A p0 in
        let VB := sub_pt B p0 in
        let cr := crossVec VA VB in
        tick ;;
        if Qltb (Qabs cr) eps
        then (if Qltb (dist2 p0 A) (dist2 p0 B)
              then ret (x :: rest)
              else ret filtered)
        else ret (x :: filtered)
  end.

(** The [while] loop of the stack sweep; [st] has its top at the head. *)
Fixpoint pop_nonleft (points : list QPointF) (s3 : nat) (st : list nat)
  : Counted (list nat) :=
  match st with
  | s2 :: ((s1 :: _) as st') =>
      tick ;;
      if Qle_bool (cross (at_ points s1) (at_ points s2) (at_ points s3)) 0
      then pop_nonleft points s3 st'
      else ret st
  | _ => ret st
  end.

Definition sweep_step (points : list QPointF) (x : nat) (st : list nat)
  : Counted (list nat) :=
  st' <- pop_nonleft points x st ;; ret (x :: st').

(** The sorted index vector of the scan. *)
Definition graham_sorted (points : list QPointF) (pivot : nat) : Counted (list nat) :=
  std_sort (angle_comp points pivot (at_ points pivot)) (seq 0 (length points)).

(** The vector [filtered], in the order of the source. *)
Definition graham_filtered (points : list QPointF) (pivot : nat) (idx : list nat)
  : Counted (list nat) :=
  f <- for_each idx (filter_step points pivot (at_ points pivot)) [] ;;
  ret (rev f).

Definition graham_body (points : list QPointF) : Counted (list nat) :=
  pivot <- find_pivot points ;;
  idx <- graham_sorted points pivot ;;
  filtered <- graham_filtered points pivot idx ;;
  if length filtered <? 3 then ret filtered
  else
    match filtered with
    | f0 :: f1 :: rest =>
        st <- for_each rest (sweep_step points) [f1; f0] ;;
        ret (rev st)
    | _ => ret filtered
    end.

(** [iterations] and [outHull] are the two reference parameters. *)
Definition computeGrahamScan (points : list QPointF)
  (iterations : qint64) (outHull : list nat) : qint64 * list nat :=
  let (hull, iterations') := graham_body points 0%Z in
  (iterations', hull).

(** ** std::set *)

(** [s.insert(x)] on a strictly increasing list. *)
Fixpoint set_insert {A : Type} (ltb : A -> A -> bool) (x : A) (s : list A) : list A :=
  match s with
  | [] => [x]
  | y :: s' =>
      if ltb x y then x :: s
      else if ltb y x then y :: set_insert ltb x s'
      else s
  end.

(** [operator<] of [std::pair<int,int>]. *)
Definition pair_ltb (a b : nat * nat) : bool :=
  (fst a <? fst b) || ((fst a =? fst b) && (snd a <? snd b)).

(** ** orderHullPoints *)

(** [std::atan2] has no rational value.  An angle is kept as the pair
    [(y, x)] it is the [atan2] of, and two angles are compared exactly:
    [atan2 y x] lies in (-pi, 0) when [y < 0], is 0 when [y = 0 <= x], lies
    in (0, pi) when [0 < y] and is pi when [y = 0] and [x < 0]; inside each
    of the two open half planes the angle grows counter-clockwise. *)
Record angle : Type := mkAngle { ang_y : Q; ang_x : Q }.

Definition atan2 (y x : Q) : angle := mkAngle y x.

Definition half_plane (a : angle) : nat :=
  if Qltb (ang_y a) 0 then 0
  else if Qltb 0 (ang_y a) then 2
  else if Qltb (ang_x a) 0 then 3
  else 1.

(** [a < b] on two values of [atan2]. *)
Definition angle_ltb (a b : angle) : bool :=
  (half_plane a <? half_plane b)
  || ((half_plane a =? half_plane b)
      && negb (Qeq_bool (ang_y a) 0)
      && Qltb 0 (ang_x a * ang_y b - ang_y a * ang_x b)).



Definition centroid (pts : list QPointF) : QPointF :=
  let m := inject_Z (Z.of_nat (length pts)) in
  let cx := fold_left (fun c p => c + px p)%Q pts 0%Q in
  let cy := fold_left (fun c p => c + py p)%Q pts 0%Q in
  mkPoint (cx / m) (cy / m).

(** The vector [arr] of (angle, index) pairs. *)
Definition angle_table (pts : list QPointF) (indices : list nat) : list (angle * nat) :=
  let center := centroid pts in
  map (fun i =>
         let v := sub_pt (nth i pts origin) center in
         (atan2 (py v) (px v), nth i indices 0))
      (seq 0 (length pts)).

(** The lambda of [orderHullPoints] compares the angles and counts nothing. *)
Definition by_angle (a b : angle * nat) : Counted bool :=
  ret (angle_ltb (fst a) (fst b)).

Definition orderHullPoints (pts : list QPointF) (indices : list nat) : list nat :=
  let m := length pts in
  if m <=? 1 then indices
  else
    let arr := angle_table pts indices in
    let arr := fst (std_sort by_angle arr 0%Z) in
    map snd arr.

(** ** computeSlowConvexHull *)

(** The loop over [k] with its [continue] and its [break]. *)
Fixpoint side_scan (points : list QPointF) (i j : nat) (ks : list nat)
  (pos neg : bool) : Counted (bool * bool) :=
  match ks with
  | [] => ret (pos, neg)
  | k :: ks' =>
      if (k =? i) || (k =? j) then side_scan points i j ks' pos neg
      else
        tick ;;
        let c := cross (at_ points i) (at_ points j) (at_ points k) in
        let pos' := if Qltb eps c then true else pos in
        let neg' := if Qltb eps c then neg
                    else if Qltb c (- eps) then true else neg in
        if pos' && neg' then ret (pos', neg')
        else side_scan points i j ks' pos' neg'
  end.

(** The body of the loop over [j]. *)
Definition pair_step (points : list QPointF) (i j : nat) (edges : list (nat * nat))
  : Counted (list (nat * nat)) :=
  pn <- side_scan points i j (seq 0 (length points)) false false ;;
  if negb (fst pn && snd pn)
  then ret (set_insert pair_ltb (j, i) (set_insert pair_ltb (i, j) edges))
  else ret edges.

Definition slow_edges (points : list QPointF) : Counted (list (nat * nat)) :=
  let n := length points in
  for_each (seq 0 n)
    (fun i edges => for_each (seq (i + 1) (n - (i + 1))) (pair_step points i) edges)
    [].

Definition collect_verts (edges : list (nat * nat)) : list nat :=
  fold_left
    (fun verts e => set_insert Nat.ltb (snd e) (set_insert Nat.ltb (fst e) verts))
    edges [].

Definition computeSlowConvexHull (points : list QPointF)
  (iterations : qint64) (outHull : list nat) : qint64 * list nat :=
  let n := length points in
  if n <? 3 then (0%Z, outHull)
  else
    let (edges, iterations') := slow_edges points 0%Z in
    let verts := collect_verts edges in
    match verts with
    | [] => (iterations', outHull)
    | _ =>
        let pts := map (at_ points) verts in
        let idx := verts in
        (iterations', orderHullPoints pts idx)
    end.

(** ** The widget and its slots *)

Record DrawingWidget : Type := mkWidget {
  points : list QPointF;
  hullFast : list nat;
  hullSlow : list nat;
  iterationsFast : qint64;
  iterationsSlow : qint64
}.

(** The member functions a slot calls, in call order. *)
Inductive call : Type :=
  | Call_update
  | Call_computeGrahamScan
  | Call_computeSlowConvexHull.

Inductive MouseButton : Type := LeftButton | RightButton | MiddleButton | NoButton.

Record QMouseEvent : Type := mkEvent { button : MouseButton; position : QPointF }.

(** [hullFast.clear(); hullSlow.clear(); iterationsFast = iterationsSlow = 0;] *)
Definition clear_results (w : DrawingWidget) : DrawingWidget :=
  mkWidget (points w) [] [] 0%Z 0%Z.

Definition mousePressEvent (event : QMouseEvent) (w : DrawingWidget)
  : DrawingWidget * list call :=
  match button event with
  | LeftButton =>
      let p := position event in
      let w := mkWidget (points w ++ [p]) (hullFast w) (hullSlow w)
                 (iterationsFast w) (iterationsSlow w) in
      (clear_results w, [Call_update])
  | _ => (w, [])
  end.

Definition clearAll (w : DrawingWidget) : DrawingWidget * list call :=
  let w := mkWidget [] (hullFast w) (hullSlow w) (iterationsFast w) (iterationsSlow w) in
  (clear_results w, [Call_update]).

Definition runBothAlgorithms (w : DrawingWidget) : DrawingWidget * list call :=
  let w := clear_results w in
  if length (points w) <? 3 then (w, [Call_update])
  else
    let (itF, hF) := computeGrahamScan (points w) (iterationsFast w) (hullFast w) in
    let w := mkWidget (points w) hF (hullSlow w) itF (iterationsSlow w) in
    let (itS, hS) := computeSlowConvexHull (points w) (iterationsSlow w) (hullSlow w) in
    let w := mkWidget (points w) (hullFast w) hS (iterationsFast w) itS in
    (w, [Call_computeGrahamScan; Call_computeSlowConvexHull; Call_update]).

(** ** The constructor and sequences of slot calls *)

(** [DrawingWidget::DrawingWidget]: empty vectors, both counters 0. *)
Definition initial_widget : DrawingWidget := mkWidget [] [] [] 0%Z 0%Z.

(** What the window sends to the widget. *)
Inductive slot : Type :=
  | Press (event : QMouseEvent)
  | Clear
  | Run.

Definition do_slot (w : DrawingWidget) (s : slot) : DrawingWidget :=
  match s with
  | Press event => fst (mousePressEvent event w)
  | Clear => fst (clearAll w)
  | Run => fst (runBothAlgorithms w)
  end.

Definition run_slots (l : list slot) (w : DrawingWidget) : DrawingWidget :=
  fold_left do_slot l w.

(** ** paintEvent *)

Inductive color : Type := White | Black | Red | Blue.

Inductive pen_style : Type := SolidLine | DashLine.

(** The calls made on the [QPainter], in order.  [DrawText] carries the
    three numbers substituted into the fixed wording of the overlay. *)
Inductive paint_op : Type :=
  | SetRenderHint_Antialiasing
  | FillRect (c : color)
  | SetPen (c : color) (width : Z) (style : pen_style)
  | DrawEllipse (center : QPointF) (rx ry : Z)
  | DrawPolygon (poly : list QPointF)
  | DrawLine (a b : QPointF)
  | SetFontPointSize (size : Z)
  | DrawText (x y : Z) (npoints : nat) (fast slow : qint64).

(** [for (int idx : hull) poly << points[idx];], where [points[idx]] is a
    checked access: [None] stands for an index outside the vector. *)
Fixpoint hull_polygon (points : list QPointF) (hull : list nat)
  : option (list QPointF) :=
  match hull with
  | [] => Some []
  | idx :: hull' =>
      match nth_error points idx, hull_polygon points hull' with
      | Some p, Some poly => Some (p :: poly)
      | _, _ => None
      end
  end.

(** One of the two [if (!hull.isEmpty())] blocks. *)
Definition paint_hull (c : color) (style : pen_style) (points : list QPointF)
  (hull : list nat) : option (list paint_op) :=
  match hull with
  | [] => Some []
  | _ =>
      match hull_polygon points hull with
      | None => None
      | Some poly =>
          Some (SetPen c 2 style
                  :: (if 1 <? length poly
                      then [DrawPolygon poly; DrawLine (last poly origin) (hd origin poly)]
                      else []))
      end
  end.

Definition paintEvent (w : DrawingWidget) : option (list paint_op) :=
  match paint_hull Red SolidLine (points w) (hullSlow w),
        paint_hull Blue DashLine (points w) (hullFast w) with
  | Some slow_ops, Some fast_ops =>
      Some ([SetRenderHint_Antialiasing; FillRect White; SetPen Black 1 SolidLine]
              ++ map (fun p => DrawEllipse p 4 4) (points w)
              ++ slow_ops ++ fast_ops
              ++ [SetPen Black 1 SolidLine; SetFontPointSize 10;
                  DrawText 8 16 (length (points w)) (iterationsFast w) (iterationsSlow w)])
  | _, _ => None
  end.

(** ** Notions used to state properties *)

(** The position a slot call adds to the points, if any. *)
Definition left_position (s : slot) : list QPointF :=
  match s with
  | Press event =>
      match button event with
      | LeftButton => [position event]
      | _ => []
      end
  | _ => []
  end.

(** Every hull entry indexes a point, and no entry is repeated. *)
Definition hull_valid (points : list QPointF) (hull : list nat) : Prop :=
  Forall (fun idx => idx < length points) hull /\ NoDup hull.

(** Both hulls are empty and both counters are 0. *)
Definition results_cleared (w : DrawingWidget) : Prop :=
  hullFast w = [] /\ hullSlow w = [] /\ iterationsFast w = 0%Z /\ iterationsSlow w = 0%Z.

(** [k] increments of a counter. *)
Definition ticked (k : nat) (c : qint64) : qint64 :=
  Nat.iter k (fun c => snd (tick c)) c.

(** [k] is neither [i] nor [j]: the loop over [k] does not skip it. *)
Definition third_point (i j k : nat) : bool := negb ((k =? i) || (k =? j)).

(** The third points strictly on the positive, and strictly on the
    negative, side of the line through [points[i]] and [points[j]]. *)
Definition strictly_left (points : list QPointF) (i j k : nat) : bool :=
  negb ((k =? i) || (k =? j))
  && Qltb eps (cross (at_ points i) (at_ points j) (at_ points k)).

Definition strictly_right (points : list QPointF) (i j k : nat) : bool :=
  negb ((k =? i) || (k =? j))
  && Qltb (cross (at_ points i) (at_ points j) (at_ points k)) (- eps).

(** The pair [(i, j)] has no two third points strictly on opposite sides. *)
Definition one_sided (points : list QPointF) (i j : nat) : bool :=
  negb (existsb (strictly_left points i j) (seq 0 (length points))
        && existsb (strictly_right points i j) (seq 0 (length points))).

(** ** Reading a hull as a closed polygon *)

(** The consecutive triples of a closed polygon: vertex [i], its successor
    and the successor of that, wrapping from the last vertex to the first. *)
Definition wrap_triples (hull : list nat) : list (nat * nat * nat) :=
  let m := length hull in
  map (fun i => (nth i hull 0, nth ((i + 1) mod m) hull 0, nth ((i + 2) mod m) hull 0))
      (seq 0 m).

Definition orientation (points : list QPointF) (t : nat * nat * nat) : Q :=
  let '(a, b, c) := t in cross (at_ points a) (at_ points b) (at_ points c).

(** No triple of the closed polygon turns clockwise. *)
Definition no_clockwise_turn (points : list QPointF) (hull : list nat) : bool :=
  forallb (fun t => Qle_bool 0 (orientation points t)) (wrap_triples hull).


(** ** Point sets used below *)

Definition pt (x y : Z) : QPointF := mkPoint (inject_Z x) (inject_Z y).

(** A square and its centre. *)
Definition square5 : list QPointF := [pt 0 0; pt 4 0; pt 4 4; pt 0 4; pt 2 2].

(** Three points on a line. *)
Definition line3 : list QPointF := [pt 0 0; pt 1 1; pt 2 2].

(** A triangle. *)
Definition triangle3 : list QPointF := [pt 0 0; pt 4 0; pt 0 4].

(** The triangle (0,0), (0,6), (8,3) with the inner point (6,3) entered
    twice, once before and once after the corner (8,3). *)
Definition dent5 : list QPointF := [pt 0 0; pt 0 6; pt 6 3; pt 8 3; pt 6 3].

(** One point entered three times. *)
Definition same3 : list QPointF := [pt 1 1; pt 1 1; pt 1 1].

(** * Properties *)

(** ** The counting monad and loops *)

Lemma bind_fst {A B : Type} (m : Counted A) (f : A -> Counted B) (c : qint64) :
  fst (bind m f c) = fst (f (fst (m c)) (snd (m c))).
Proof. unfold bind. destruct (m c); reflexivity. Qed.

Lemma bind_snd {A B : Type} (m : Counted A) (f : A -> Counted B) (c : qint64) :
  snd (bind m f c) = snd (f (fst (m c)) (snd (m c))).
Proof. unfold bind. destruct (m c); reflexivity. Qed.

(** A loop invariant [P done state], where [done] is the part of the range
    already visited. *)
Lemma for_each_inv {A S : Type} (P : list A -> S -> Prop)
  (body : A -> S -> Counted S) (l : list A) :
  (forall done x rest s c,
      l = done ++ x :: rest -> P done s -> P (done ++ [x]) (fst (body x s c))) ->
  forall s c, P [] s -> P l (fst (for_each l body s c)).
Proof.
  intros Hstep.
  assert (G : forall rest done s c,
             l = done ++ rest -> P done s ->
             P l (fst (for_each rest body s c))).
  { induction rest as [|x rest IH]; intros done s c El HP.
    - rewrite app_nil_r in El. subst done. exact HP.
    - simpl. rewrite bind_fst.
      apply (IH (done ++ [x])).
      + rewrite <- app_assoc. exact El.
      + eapply Hstep; eassumption. }
  intros s c HP. apply (G l [] s c); auto.
Qed.

(** ** The sort returns a permutation *)

Section SortFacts.
Context {A : Type} (comp : A -> A -> Counted bool).

Lemma unguarded_linear_insert_perm (val : A) (before : list A) (c : qint64) :
  Permutation (fst (unguarded_linear_insert comp val before c)) (val :: before).
Proof.
  revert c. induction before as [|next rest IH]; intro c; simpl.
  - apply Permutation_refl.
  - rewrite bind_fst.
    destruct (fst (comp val next c)).
    + rewrite bind_fst. simpl.
      eapply perm_trans; [apply perm_skip, IH | apply perm_swap].
    + apply Permutation_refl.
Qed.

Lemma insertion_step_perm (val : A) (sorted : list A) (c : qint64) :
  Permutation (fst (insertion_step comp val sorted c)) (val :: sorted).
Proof.
  unfold insertion_step. destruct sorted as [|first tl].
  - apply Permutation_refl.
  - rewrite bind_fst. destruct (fst (comp val first c)).
    + apply Permutation_refl.
    + rewrite bind_fst. simpl fst at 1.
      eapply perm_trans; [symmetry; apply Permutation_rev|].
      eapply perm_trans; [apply unguarded_linear_insert_perm|].
      apply perm_skip. symmetry. apply Permutation_rev.
Qed.

Lemma std_sort_perm (l : list A) (c : qint64) :
  Permutation (fst (std_sort comp l c)) l.
Proof.
  unfold std_sort.
  apply (for_each_inv (fun done s => Permutation s done)).
  - intros done x rest s c' _ HP.
    eapply perm_trans; [apply insertion_step_perm|].
    eapply perm_trans; [apply perm_skip, HP|].
    apply Permutation_cons_append.
  - apply Permutation_refl.
Qed.
End SortFacts.

(** ** Indices of the fast hull *)

Lemma graham_sorted_perm (points : list QPointF) (pivot : nat) (c : qint64) :
  Permutation (fst (graham_sorted points pivot c)) (seq 0 (length points)).
Proof. apply std_sort_perm. Qed.

Lemma filter_step_cases (points : list QPointF) (pivot : nat) (p0 : QPointF)
  (x : nat) (filtered : list nat) (c : qint64) :
  let f' := fst (filter_step points pivot p0 x filtered c) in
  f' = filtered \/ f' = x :: filtered \/ f' = x :: tl filtered.
Proof.
  unfold filter_step. destruct filtered as [|last rest]; simpl.
  - right; left; reflexivity.
  - destruct (x =? pivot); [left; reflexivity|].
    rewrite bind_fst.
    destruct (Qltb _ eps).
    + destruct (Qltb _ _); simpl; auto.
    + simpl; auto.
Qed.

Lemma NoDup_tl {A : Type} (l : list A) : NoDup l -> NoDup (tl l).
Proof. destruct l; simpl; auto. inversion 1; auto. Qed.

(** [filtered] holds distinct entries of [idx]. *)
Lemma filter_loop_sub (points : list QPointF) (pivot : nat) (p0 : QPointF)
  (idx : list nat) (c : qint64) :
  NoDup idx ->
  let f := fst (for_each idx (filter_step points pivot p0) [] c) in
  incl f idx /\ NoDup f.
Proof.
  intros Hnd.
  apply (for_each_inv (fun done f => incl f done /\ NoDup f)).
  - intros done x rest f c' El [Hin Hndf].
    assert (Hx : ~ In x f).
    { intro Hxf. apply Hin in Hxf. rewrite El in Hnd.
      apply NoDup_remove_2 in Hnd. apply Hnd. apply in_or_app. left; exact Hxf. }
    destruct (filter_step_cases points pivot p0 x f c') as [E|[E|E]]; rewrite E.
    + split; [apply incl_appl; exact Hin | exact Hndf].
    + split.
      * intros y [Hy|Hy]; apply in_or_app; [right; left; exact Hy | left; auto].
      * constructor; assumption.
    + split.
      * intros y [Hy|Hy]; apply in_or_app; [right; left; exact Hy | left].
        apply Hin. destruct f; [destruct Hy | right; exact Hy].
      * constructor; [|apply NoDup_tl; exact Hndf].
        intro Hy. apply Hx. destruct f; [destruct Hy | right; exact Hy].
  - split; [intros y [] | constructor].
Qed.

(** The [while] loop only removes entries from the top of the stack. *)
Lemma pop_nonleft_suffix (points : list QPointF) (s3 : nat) (st : list nat) (c : qint64) :
  exists popped, st = popped ++ fst (pop_nonleft points s3 st c).
Proof.
  revert c. induction st as [|s2 st' IH]; intro c.
  - exists []. reflexivity.
  - destruct st' as [|s1 st''].
    + exists []. reflexivity.
    + cbn [pop_nonleft]. rewrite bind_fst.
      destruct (Qle_bool _ 0).
      * destruct (IH (snd (tick c))) as [popped E].
        exists (s2 :: popped). simpl. f_equal. exact E.
      * exists []. reflexivity.
Qed.

Lemma sweep_loop_sub (points : list QPointF) (f0 f1 : nat) (rest : list nat) (c : qint64) :
  NoDup (f0 :: f1 :: rest) ->
  let st := fst (for_each rest (sweep_step points) [f1; f0] c) in
  incl st (f0 :: f1 :: rest) /\ NoDup st.
Proof.
  intros Hnd.
  apply (for_each_inv (fun done st => incl st (f0 :: f1 :: done) /\ NoDup st)).
  - intros done x rest' st c' El [Hin Hndst].
    unfold sweep_step. rewrite bind_fst. simpl fst at 1.
    destruct (pop_nonleft_suffix points x st c') as [popped E].
    set (st' := fst (pop_nonleft points x st c')) in *.
    assert (Hsub : incl st' st).
    { intros y Hy. rewrite E. apply in_or_app. right; exact Hy. }
    assert (Hx : ~ In x st).
    { intro Hxs. apply Hin in Hxs. rewrite El in Hnd.
      change (f0 :: f1 :: done ++ x :: rest') with ((f0 :: f1 :: done) ++ x :: rest') in Hnd.
      apply NoDup_remove_2 in Hnd. apply Hnd. apply in_or_app. left; exact Hxs. }
    split.
    + intros y [Hy|Hy].
      * subst y. change (In x ((f0 :: f1 :: done) ++ [x])).
        apply in_or_app. right; left; reflexivity.
      * change (In y ((f0 :: f1 :: done) ++ [x])).
        apply in_or_app. left. apply Hin, Hsub, Hy.
    + constructor.
      * intro Hy. apply Hx, Hsub, Hy.
      * rewrite E in Hndst. apply NoDup_app_remove_l in Hndst. exact Hndst.
  - inversion Hnd as [|? ? Hf0 Hnd']. inversion Hnd' as [|? ? Hf1 _]. subst.
    split.
    + intros y [Hy|[Hy|[]]]; subst y; simpl; auto.
    + constructor; [|constructor; [intros []|constructor]].
      intros [Hy|[]]. apply Hf0. left; symmetry; exact Hy.
Qed.

Lemma graham_body_sub (points : list QPointF) (c : qint64) :
  let hull := fst (graham_body points c) in
  incl hull (seq 0 (length points)) /\ NoDup hull.
Proof.
  unfold graham_body. rewrite !bind_fst.
  set (pivot := fst (find_pivot points c)).
  set (c1 := snd (find_pivot points c)).
  set (idx := fst (graham_sorted points pivot c1)).
  set (c2 := snd (graham_sorted points pivot c1)).
  assert (Hperm : Permutation idx (seq 0 (length points))) by apply graham_sorted_perm.
  assert (Hnd : NoDup idx).
  { eapply Permutation_NoDup; [symmetry; exact Hperm | apply seq_NoDup]. }
  unfold graham_filtered. rewrite !bind_fst, !bind_snd. simpl ret.
  set (f := fst (for_each idx _ [] c2)).
  set (c3 := snd (for_each idx _ [] c2)).
  destruct (filter_loop_sub points pivot (at_ points pivot) idx c2 Hnd) as [Hin Hndf].
  fold f in Hin, Hndf.
  assert (Hfin : incl (rev f) (seq 0 (length points))).
  { intros y Hy. apply (Permutation_in _ Hperm). apply Hin. apply in_rev. exact Hy. }
  assert (Hfnd : NoDup (rev f)) by (apply NoDup_rev; exact Hndf).
  change (fst (ret (rev f) c3)) with (rev f).
  change (snd (ret (rev f) c3)) with c3.
  destruct (length (rev f) <? 3); [split; assumption|].
  destruct (rev f) as [|f0 [|f1 rest]] eqn:Ef; try (split; assumption).
  rewrite bind_fst. simpl fst at 1.
  destruct (sweep_loop_sub points f0 f1 rest c3 Hfnd) as [Hs1 Hs2].
  split.
  - intros y Hy. apply Hfin. apply Hs1. apply in_rev. exact Hy.
  - apply NoDup_rev. exact Hs2.
Qed.

(** ** The stack of the sweep turns left *)





(** ** std::set as an increasing list *)

Section SetFacts.
Context {A : Type} (ltb : A -> A -> bool).
Hypothesis ltb_total : forall a b, ltb a b = false -> ltb b a = false -> a = b.

Lemma set_insert_In (x : A) (s : list A) (y : A) :
  In y (set_insert ltb x s) <-> y = x \/ In y s.
Proof.
  induction s as [|z s IH]; simpl.
  - intuition.
  - destruct (ltb x z) eqn:Exz.
    + simpl. intuition.
    + destruct (ltb z x) eqn:Ezx.
      * simpl. rewrite IH. intuition.
      * assert (x = z) by (apply ltb_total; assumption). subst z.
        simpl. intuition.
Qed.
End SetFacts.

Lemma nat_ltb_total (a b : nat) : (a <? b) = false -> (b <? a) = false -> a = b.
Proof. intros H1 H2. apply Nat.ltb_ge in H1. apply Nat.ltb_ge in H2. lia. Qed.

Lemma pair_ltb_total (a b : nat * nat) :
  pair_ltb a b = false -> pair_ltb b a = false -> a = b.
Proof.
  destruct a as [a1 a2], b as [b1 b2]. unfold pair_ltb; simpl.
  destruct (Nat.ltb_spec a1 b1), (Nat.ltb_spec b1 a1),
           (Nat.eqb_spec a1 b1), (Nat.eqb_spec b1 a1),
           (Nat.ltb_spec a2 b2), (Nat.ltb_spec b2 a2);
    simpl; intros; try discriminate; try lia.
  f_equal; lia.
Qed.

Lemma vert_insert_In (x : nat) (s : list nat) (y : nat) :
  In y (set_insert Nat.ltb x s) <-> y = x \/ In y s.
Proof. apply set_insert_In. exact nat_ltb_total. Qed.

Lemma edge_insert_In (x : nat * nat) (s : list (nat * nat)) (y : nat * nat) :
  In y (set_insert pair_ltb x s) <-> y = x \/ In y s.
Proof. apply set_insert_In. exact pair_ltb_total. Qed.

Lemma vert_insert_sorted (x : nat) (s : list nat) :
  StronglySorted lt s -> StronglySorted lt (set_insert Nat.ltb x s).
Proof.
  induction 1 as [|z s Hs IH Hz]; simpl.
  - repeat constructor.
  - destruct (Nat.ltb_spec x z) as [Hxz|Hxz].
    + constructor; [constructor; assumption|].
      constructor; [exact Hxz|].
      rewrite Forall_forall in *. intros y Hy. specialize (Hz y Hy). lia.
    + destruct (Nat.ltb_spec z x) as [Hzx|Hzx].
      * constructor; [exact IH|].
        rewrite Forall_forall in *. intros y Hy.
        apply vert_insert_In in Hy. destruct Hy as [->|Hy]; auto.
      * constructor; assumption.
Qed.

Lemma sorted_NoDup (s : list nat) : StronglySorted lt s -> NoDup s.
Proof.
  induction 1 as [|z s Hs IH Hz]; constructor; auto.
  intro Hin. rewrite Forall_forall in Hz. specialize (Hz z Hin). lia.
Qed.

(** ** Indices of the slow hull *)

Lemma collect_verts_spec (edges : list (nat * nat)) :
  StronglySorted lt (collect_verts edges)
  /\ forall v, In v (collect_verts edges) <->
               exists e, In e edges /\ (v = fst e \/ v = snd e).
Proof.
  unfold collect_verts.
  assert (G : forall acc,
             StronglySorted lt acc ->
             let r := fold_left
                        (fun verts e =>
                           set_insert Nat.ltb (snd e) (set_insert Nat.ltb (fst e) verts))
                        edges acc in
             StronglySorted lt r
             /\ forall v, In v r <->
                          In v acc \/ exists e, In e edges /\ (v = fst e \/ v = snd e)).
  { induction edges as [|e edges IH]; intros acc Hacc; simpl.
    - split; [exact Hacc|]. intro v. split; [auto|].
      intros [H|[e [[] _]]]; exact H.
    - destruct (IH (set_insert Nat.ltb (snd e) (set_insert Nat.ltb (fst e) acc)))
        as [Hs Hin].
      { apply vert_insert_sorted, vert_insert_sorted, Hacc. }
      split; [exact Hs|]. intro v. rewrite Hin, !vert_insert_In.
      split.
      + intros [[Hv|[Hv|Hv]]|[e' [He' Hv]]].
        * right. exists e. auto.
        * right. exists e. auto.
        * left; exact Hv.
        * right. exists e'. auto.
      + intros [Hv|[e' [[He'|He'] Hv]]].
        * left. auto.
        * subst e'. left. destruct Hv; auto.
        * right. exists e'. auto. }
  destruct (G [] (SSorted_nil lt)) as [Hs Hin].
  split; [exact Hs|]. intro v. rewrite Hin. split.
  - intros [[]|H]; exact H.
  - auto.
Qed.

Lemma pair_step_In (points : list QPointF) (i j : nat) (edges : list (nat * nat))
  (c : qint64) (e : nat * nat) :
  In e (fst (pair_step points i j edges c)) ->
  In e edges \/ e = (i, j) \/ e = (j, i).
Proof.
  unfold pair_step. rewrite bind_fst.
  destruct (negb _); simpl; [|auto].
  rewrite !edge_insert_In. intuition.
Qed.

Lemma pair_loop_In (points : list QPointF) (i : nat) (js : list nat)
  (edges : list (nat * nat)) (c : qint64) (e : nat * nat) :
  In e (fst (for_each js (pair_step points i) edges c)) ->
  In e edges \/ exists j, In j js /\ (e = (i, j) \/ e = (j, i)).
Proof.
  revert e.
  apply (for_each_inv
           (fun done edges' =>
              forall e, In e edges' ->
                        In e edges \/ exists j, In j done /\ (e = (i, j) \/ e = (j, i)))).
  - intros done x rest s c' _ IH e He.
    apply pair_step_In in He. destruct He as [He|He].
    + destruct (IH e He) as [H|[j [Hj H]]]; [left; exact H|].
      right. exists j. split; [apply in_or_app; left; exact Hj | exact H].
    + right. exists x. split; [apply in_or_app; right; left; reflexivity | exact He].
  - auto.
Qed.

Lemma slow_edges_range (points : list QPointF) (c : qint64) (e : nat * nat) :
  In e (fst (slow_edges points c)) ->
  fst e < length points /\ snd e < length points.
Proof.
  unfold slow_edges. revert e.
  apply (for_each_inv
           (fun (done : list nat) edges' =>
              forall e, In e edges' ->
                        fst e < length points /\ snd e < length points)).
  - intros done i rest s c' El IH e He.
    apply pair_loop_In in He. destruct He as [He|[j [Hj He]]]; [auto|].
    assert (Hi : In i (seq 0 (length points))).
    { rewrite El. apply in_or_app. right; left; reflexivity. }
    apply in_seq in Hi. apply in_seq in Hj.
    destruct He; subst e; simpl; lia.
  - intros e [].
Qed.

Lemma map_nth_seq (l : list nat) (d : nat) :
  map (fun i => nth i l d) (seq 0 (length l)) = l.
Proof.
  induction l as [|x l IH]; simpl; [reflexivity|].
  f_equal. rewrite <- seq_shift, map_map. exact IH.
Qed.

Lemma orderHullPoints_perm (pts : list QPointF) (indices : list nat) :
  length pts = length indices ->
  Permutation (orderHullPoints pts indices) indices.
Proof.
  intro Hlen. unfold orderHullPoints.
  destruct (length pts <=? 1); [apply Permutation_refl|].
  eapply perm_trans.
  - apply Permutation_map. apply std_sort_perm.
  - unfold angle_table. rewrite map_map. simpl. rewrite Hlen.
    rewrite map_nth_seq. apply Permutation_refl.
Qed.

Lemma slow_hull_sub (points : list QPointF) (it : qint64) :
  let hull := snd (computeSlowConvexHull points it []) in
  incl hull (seq 0 (length points)) /\ NoDup hull.
Proof.
  unfold computeSlowConvexHull.
  destruct (length points <? 3).
  { simpl. split; [intros y [] | constructor]. }
  destruct (slow_edges points 0%Z) as [edges it'] eqn:Ee.
  destruct (collect_verts_spec edges) as [Hs Hin].
  destruct (collect_verts edges) as [|v verts] eqn:Ev.
  { simpl. split; [intros y [] | constructor]. }
  rewrite <- Ev in *. cbn [snd].
  assert (Hperm : Permutation
                    (orderHullPoints (map (at_ points) (collect_verts edges))
                       (collect_verts edges))
                    (collect_verts edges)).
  { apply orderHullPoints_perm. apply length_map. }
  split.
  - intros y Hy. apply (Permutation_in _ Hperm) in Hy.
    apply Hin in Hy. destruct Hy as [e [He Hy]].
    assert (Hr := slow_edges_range points 0%Z e). rewrite Ee in Hr.
    specialize (Hr He). apply in_seq. destruct Hy; subst y; lia.
  - eapply Permutation_NoDup; [symmetry; exact Hperm|].
    apply sorted_NoDup, Hs.
Qed.

(** ** Coincident points *)

Definition same_coords (p q : QPointF) : Prop :=
  (px p == px q)%Q /\ (py p == py q)%Q.

Definition all_coincide (points : list QPointF) : Prop :=
  forall p q, In p points -> In q points -> same_coords p q.

Lemma Qltb_true_iff (x y : Q) : Qltb x y = true <-> (x < y)%Q.
Proof.
  unfold Qltb. rewrite negb_true_iff, <- not_true_iff_false, Qle_bool_iff.
  split; [apply Qnot_le_lt | apply Qlt_not_le].
Qed.

Lemma Qltb_false_iff (x y : Q) : Qltb x y = false <-> (y <= x)%Q.
Proof. unfold Qltb. rewrite negb_false_iff. apply Qle_bool_iff. Qed.

Lemma Qltb_wd (x x' y y' : Q) : (x == x')%Q -> (y == y')%Q -> Qltb x y = Qltb x' y'.
Proof. intros Hx Hy. unfold Qltb. rewrite Hx, Hy. reflexivity. Qed.

Lemma within_eps (c : Q) : (c == 0)%Q -> Qltb (Qabs c) eps = true.
Proof. intro H. rewrite (Qltb_wd (Qabs c) 0 eps eps); [reflexivity| |reflexivity].
  rewrite H. reflexivity. Qed.

Lemma not_above_eps (c : Q) : (c == 0)%Q -> Qltb eps c = false.
Proof. intro H. rewrite (Qltb_wd eps eps c 0); [reflexivity|reflexivity|exact H]. Qed.

Lemma not_below_eps (c : Q) : (c == 0)%Q -> Qltb c (- eps) = false.
Proof. intro H. rewrite (Qltb_wd c 0 (- eps) (- eps)); [reflexivity|exact H|reflexivity]. Qed.

Lemma crossVec_same (a b p0 : QPointF) :
  same_coords a b -> (crossVec (sub_pt a p0) (sub_pt b p0) == 0)%Q.
Proof.
  intros [Hx Hy]. unfold crossVec, sub_pt; simpl. rewrite Hx, Hy. ring.
Qed.

Lemma dist2_same (a b p0 : QPointF) :
  same_coords a b -> Qltb (dist2 p0 a) (dist2 p0 b) = false.
Proof.
  intros [Hx Hy]. apply Qltb_false_iff. unfold dist2; simpl.
  rewrite Hx, Hy. apply Qle_refl.
Qed.

Lemma cross_same (a b c : QPointF) : same_coords a b -> (cross a b c == 0)%Q.
Proof.
  intros [Hx Hy]. unfold cross. rewrite Hx, Hy. ring.
Qed.

Lemma at_In (points : list QPointF) (i : nat) :
  i < length points -> In (at_ points i) points.
Proof. intro H. apply nth_In. exact H. Qed.


(** When all points coincide, [filtered] keeps its first entry only. *)
Lemma filter_loop_coincide (points : list QPointF) (pivot : nat) (idx : list nat)
  (c : qint64) :
  all_coincide points ->
  (forall i, In i idx -> i < length points) ->
  length (fst (for_each idx (filter_step points pivot (at_ points pivot)) [] c))
  = Nat.min 1 (length idx).
Proof.
  intros Hall Hidx.
  apply (for_each_inv
           (fun done f => incl f done /\ length f = Nat.min 1 (length done))).
  - intros done x rest f c' El [Hin Hlen].
    assert (Hx : x < length points).
    { apply Hidx. rewrite El. apply in_or_app. right; left; reflexivity. }
    destruct f as [|last tl].
    + simpl. split.
      * intros y [Hy|[]]. apply in_or_app. right; left; exact Hy.
      * rewrite length_app. simpl. destruct (length done); reflexivity.
    + assert (Hlast : last < length points).
      { apply Hidx. rewrite El. apply in_or_app. left. apply Hin. left; reflexivity. }
      assert (Hsame : same_coords (at_ points last) (at_ points x)).
      { apply Hall; apply at_In; assumption. }
      assert (E : fst (filter_step points pivot (at_ points pivot) x (last :: tl) c')
                  = last :: tl).
      { unfold filter_step. destruct (x =? pivot); [reflexivity|].
        rewrite bind_fst.
        rewrite (within_eps _ (crossVec_same _ _ _ Hsame)).
        rewrite (dist2_same _ _ _ Hsame). reflexivity. }
      rewrite E. split.
      * apply incl_appl. exact Hin.
      * rewrite Hlen, length_app. simpl.
        destruct done as [|d done']; [destruct (Hin last); left; reflexivity|].
        simpl. reflexivity.
  - split; [intros y [] | reflexivity].
Qed.

Lemma graham_coincide (points : list QPointF) (c : qint64) :
  0 < length points -> all_coincide points ->
  length (fst (graham_body points c)) = 1.
Proof.
  intros Hn Hall. unfold graham_body, graham_filtered.
  rewrite !bind_fst, !bind_snd.
  set (pivot := fst (find_pivot points c)).
  set (c1 := snd (find_pivot points c)).
  set (idx := fst (graham_sorted points pivot c1)).
  set (c2 := snd (graham_sorted points pivot c1)).
  set (f := fst (for_each idx _ [] c2)).
  set (c3 := snd (for_each idx _ [] c2)).
  change (fst (ret (rev f) c3)) with (rev f).
  change (snd (ret (rev f) c3)) with c3.
  assert (Hperm : Permutation idx (seq 0 (length points))) by apply graham_sorted_perm.
  assert (Hlen : length (rev f) = 1).
  { rewrite length_rev. unfold f. rewrite filter_loop_coincide.
    - rewrite (Permutation_length Hperm), length_seq.
      destruct (length points); [lia | reflexivity].
    - exact Hall.
    - intros i Hi. apply (Permutation_in _ Hperm) in Hi. apply in_seq in Hi. lia. }
  rewrite Hlen. simpl. exact Hlen.
Qed.

(** A pair of coincident points passes the edge test, whatever the others. *)
Lemma side_scan_coincide (points : list QPointF) (i j : nat) (ks : list nat)
  (c : qint64) :
  same_coords (at_ points i) (at_ points j) ->
  fst (side_scan points i j ks false false c) = (false, false).
Proof.
  intro Hsame. revert c. induction ks as [|k ks IH]; intro c; simpl.
  - reflexivity.
  - destruct ((k =? i) || (k =? j)); [apply IH|].
    rewrite bind_fst.
    rewrite (not_above_eps _ (cross_same _ _ (at_ points k) Hsame)).
    rewrite (not_below_eps _ (cross_same _ _ (at_ points k) Hsame)).
    simpl. apply IH.
Qed.

Lemma pair_step_keeps (points : list QPointF) (i j : nat) (edges : list (nat * nat))
  (c : qint64) (e : nat * nat) :
  In e edges -> In e (fst (pair_step points i j edges c)).
Proof.
  intro He. unfold pair_step. rewrite bind_fst.
  destruct (negb _); simpl; [|exact He].
  rewrite !edge_insert_In. auto.
Qed.

Lemma pair_step_coincide (points : list QPointF) (i j : nat)
  (edges : list (nat * nat)) (c : qint64) :
  same_coords (at_ points i) (at_ points j) ->
  In (i, j) (fst (pair_step points i j edges c)).
Proof.
  intro Hsame. unfold pair_step. rewrite bind_fst.
  rewrite side_scan_coincide by exact Hsame. simpl.
  rewrite !edge_insert_In. auto.
Qed.

Lemma pair_loop_keeps (points : list QPointF) (i : nat) (js : list nat)
  (edges : list (nat * nat)) (c : qint64) (e : nat * nat) :
  In e edges -> In e (fst (for_each js (pair_step points i) edges c)).
Proof.
  intro He.
  apply (for_each_inv (fun (done : list nat) edges' => In e edges')); [|exact He].
  intros done x rest s c' _ H. apply pair_step_keeps. exact H.
Qed.

Lemma pair_loop_coincide (points : list QPointF) (i : nat) (js : list nat)
  (edges : list (nat * nat)) (c : qint64) :
  (forall j, In j js -> same_coords (at_ points i) (at_ points j)) ->
  forall j, In j js -> In (i, j) (fst (for_each js (pair_step points i) edges c)).
Proof.
  intro Hsame.
  apply (for_each_inv
           (fun done edges' => forall j, In j done -> In (i, j) edges')).
  - intros done x rest s c' El IH j Hj.
    apply in_app_or in Hj. destruct Hj as [Hj|[Hj|[]]].
    + apply pair_step_keeps. apply IH. exact Hj.
    + subst j. apply pair_step_coincide. apply Hsame.
      rewrite El. apply in_or_app. right; left; reflexivity.
  - intros j [].
Qed.

(** When all points coincide every pair [i < j] is recorded as an edge. *)
Lemma slow_edges_coincide (points : list QPointF) (c : qint64) :
  all_coincide points ->
  forall i j, i < j -> j < length points -> In (i, j) (fst (slow_edges points c)).
Proof.
  intros Hall i j Hij Hj. unfold slow_edges.
  assert (G : forall i, In i (seq 0 (length points)) ->
                        forall j, i < j -> j < length points ->
                                  In (i, j)
                                    (fst (for_each (seq 0 (length points))
                                            (fun i edges =>
                                               for_each
                                                 (seq (i + 1) (length points - (i + 1)))
                                                 (pair_step points i) edges)
                                            [] c))).
  { apply (for_each_inv
             (fun done edges' =>
                forall i, In i done ->
                          forall j, i < j -> j < length points -> In (i, j) edges')).
    - intros done x rest s c' El IH i' Hi' j' Hij' Hj'.
      apply in_app_or in Hi'. destruct Hi' as [Hi'|[Hi'|[]]].
      + apply pair_loop_keeps. apply IH; assumption.
      + subst i'. apply pair_loop_coincide.
        * intros k Hk. apply in_seq in Hk.
          apply Hall; apply at_In; lia.
        * apply in_seq. lia.
    - intros i' []. }
  apply G; [apply in_seq; lia | exact Hij | exact Hj].
Qed.

Lemma slow_coincide (points : list QPointF) (it : qint64) (outHull : list nat) :
  3 <= length points -> all_coincide points ->
  Permutation (snd (computeSlowConvexHull points it outHull))
              (seq 0 (length points)).
Proof.
  intros Hn Hall. unfold computeSlowConvexHull.
  destruct (Nat.ltb_spec (length points) 3) as [H|_]; [lia|].
  destruct (slow_edges points 0%Z) as [edges it'] eqn:Ee.
  destruct (collect_verts_spec edges) as [Hs Hin].
  assert (Hall_in : forall v, In v (collect_verts edges) <-> In v (seq 0 (length points))).
  { intro v. rewrite Hin, in_seq. split.
    - intros [e [He Hv]].
      assert (Hr := slow_edges_range points 0%Z e). rewrite Ee in Hr.
      specialize (Hr He). destruct Hv; subst v; lia.
    - intros [_ Hv].
      assert (Hedge := slow_edges_coincide points 0%Z Hall). rewrite Ee in Hedge.
      destruct v as [|v'].
      + exists (0, 1). split; [apply Hedge; lia | left; reflexivity].
      + exists (0, S v'). split; [apply Hedge; lia | right; reflexivity]. }
  assert (Hverts : Permutation (collect_verts edges) (seq 0 (length points))).
  { apply NoDup_Permutation; [apply sorted_NoDup, Hs | apply seq_NoDup | exact Hall_in]. }
  destruct (collect_verts edges) as [|v verts] eqn:Ev.
  { apply Permutation_length in Hverts. rewrite length_seq in Hverts.
    simpl in Hverts. lia. }
  rewrite <- Ev in *. cbn [snd].
  eapply perm_trans; [|exact Hverts].
  apply orderHullPoints_perm. apply length_map.
Qed.

(** ** The pivot does not survive the filtering loop

    The first entry of [filtered] is the pivot, whose vector from the pivot
    is zero: its cross product with any other vector is 0, so the next
    candidate is taken to lie at the same angle and, being farther away,
    overwrites the pivot. *)

Lemma crossVec_zero_l (p0 b : QPointF) :
  (crossVec (sub_pt p0 p0) (sub_pt b p0) == 0)%Q.
Proof. unfold crossVec, sub_pt; simpl. ring. Qed.

Lemma dist2_zero_coincide (a b : QPointF) :
  Qltb (dist2 a a) (dist2 a b) = false -> same_coords b a.
Proof.
  intro H. apply Qltb_false_iff in H. unfold dist2 in H. simpl in H.
  unfold same_coords.
  destruct (Q_dec (px b) (px a)) as [[Hx|Hx]|Hx];
    destruct (Q_dec (py b) (py a)) as [[Hy|Hy]|Hy];
    try (split; assumption); exfalso; Lqa.nra.
Qed.

Lemma same_coords_refl (p : QPointF) : same_coords p p.
Proof. split; reflexivity. Qed.

Lemma filter_loop_pivot (points : list QPointF) (pivot : nat) (idx : list nat)
  (c : qint64) :
  let f := fst (for_each idx (filter_step points pivot (at_ points pivot)) [] c) in
  In pivot f ->
  forall y, In y idx -> same_coords (at_ points y) (at_ points pivot).
Proof.
  set (p0 := at_ points pivot).
  assert (G : let f := fst (for_each idx (filter_step points pivot p0) [] c) in
              (f = [] -> idx = [])
              /\ (In pivot f ->
                  f = [pivot] /\ forall y, In y idx -> same_coords (at_ points y) p0)).
  { apply (for_each_inv
             (fun done f =>
                (f = [] -> done = [])
                /\ (In pivot f ->
                    f = [pivot]
                    /\ forall y, In y done -> same_coords (at_ points y) p0))).
    - intros done x rest f c' El [Hemp IH].
      destruct f as [|last tl].
      + rewrite (Hemp eq_refl). simpl. split; [discriminate|].
        intros [Hx|[]]. subst x. split; [reflexivity|].
        intros y [Hy|[]]. subst y. apply same_coords_refl.
      + split.
        { intro E. destruct (filter_step_cases points pivot p0 x (last :: tl) c')
            as [E'|[E'|E']]; rewrite E' in E; discriminate. }
        unfold filter_step. destruct (Nat.eqb_spec x pivot) as [Ex|Ex].
        * simpl. intro Hp. destruct (IH Hp) as [Ef Hsame]. split; [exact Ef|].
          intros y Hy. apply in_app_or in Hy. destruct Hy as [Hy|[Hy|[]]]; auto.
          subst y x. apply same_coords_refl.
        * rewrite bind_fst. cbn [tick fst snd].
          intro Hp.
          assert (Hpf : In pivot (last :: tl)).
          { destruct (Qltb (Qabs _) eps); [destruct (Qltb (dist2 _ _) _)|];
              simpl in Hp; simpl.
            - destruct Hp as [Hp|Hp]; [congruence | auto].
            - exact Hp.
            - destruct Hp as [Hp|Hp]; [congruence | exact Hp]. }
          destruct (IH Hpf) as [Ef Hsame].
          injection Ef as El' Etl. subst last tl.
          fold p0 in Hp. rewrite (within_eps _ (crossVec_zero_l p0 _)) in Hp.
          destruct (Qltb (dist2 p0 p0) (dist2 p0 (at_ points x))) eqn:Ed.
          { simpl in Hp. destruct Hp as [Hp|[]]. congruence. }
          fold p0. rewrite (within_eps _ (crossVec_zero_l p0 _)), Ed.
          split; [reflexivity|].
          intros y Hy. apply in_app_or in Hy. destruct Hy as [Hy|[Hy|[]]]; auto.
          subst y. apply dist2_zero_coincide. exact Ed.
    - split; [reflexivity | intros []]. }
  intros f Hp. apply G. exact Hp.
Qed.

(** Unless every point coincides with the pivot, the pivot is not a vertex
    of the fast hull. *)
Lemma fast_hull_misses_pivot (points : list QPointF) (c : qint64) (i : nat) :
  i < length points ->
  ~ same_coords (at_ points i) (at_ points (fst (find_pivot points c))) ->
  ~ In (fst (find_pivot points c)) (fst (graham_body points c)).
Proof.
  intros Hi Hdiff Hin.
  unfold graham_body, graham_filtered in Hin.
  rewrite !bind_fst, !bind_snd in Hin.
  set (pivot := fst (find_pivot points c)) in *.
  set (c1 := snd (find_pivot points c)) in *.
  set (idx := fst (graham_sorted points pivot c1)) in *.
  set (c2 := snd (graham_sorted points pivot c1)) in *.
  set (f := fst (for_each idx _ [] c2)) in *.
  set (c3 := snd (for_each idx _ [] c2)) in *.
  change (fst (ret (rev f) c3)) with (rev f) in Hin.
  change (snd (ret (rev f) c3)) with c3 in Hin.
  assert (Hperm : Permutation idx (seq 0 (length points))) by apply graham_sorted_perm.
  assert (Hnd : NoDup idx).
  { eapply Permutation_NoDup; [symmetry; exact Hperm | apply seq_NoDup]. }
  destruct (filter_loop_sub points pivot (at_ points pivot) idx c2 Hnd) as [_ Hndf].
  fold f in Hndf.
  assert (Hpf : In pivot (rev f)).
  { destruct (length (rev f) <? 3); [exact Hin|].
    destruct (rev f) as [|f0 [|f1 rest]] eqn:Ef; try exact Hin.
    rewrite bind_fst in Hin. simpl fst in Hin at 1.
    assert (Hnd' : NoDup (f0 :: f1 :: rest)).
    { rewrite <- Ef. apply NoDup_rev. exact Hndf. }
    destruct (sweep_loop_sub points f0 f1 rest c3 Hnd') as [Hs _].
    apply Hs. apply in_rev. exact Hin. }
  apply in_rev in Hpf.
  apply Hdiff.
  apply (filter_loop_pivot points pivot idx c2 Hpf).
  apply (Permutation_in _ (Permutation_sym Hperm)). apply in_seq. lia.
Qed.

(** ** The angle comparison agrees with atan2 *)

Section Atan2.
Local Open Scope R_scope.












End Atan2.

(** * The claims *)

(** C1. On the square with its centre, [(0,0); (4,0); (4,4); (0,4); (2,2)],
    the slow hull is the four corners 0, 1, 2, 3 in counter-clockwise order
    without the centre 4, but the fast hull is [1; 2; 3]: the corner 0, which
    is the pivot, is missing from it. *)
Theorem C1_square_hulls (it : qint64) (h : list nat) :
  snd (computeSlowConvexHull square5 it h) = [0; 1; 2; 3]
  /\ snd (computeGrahamScan square5 it h) = [1; 2; 3]
  /\ fst (find_pivot square5 0%Z) = 0.
Proof. vm_compute. repeat split. Qed.

(** C2. On the triangle [(0,0); (4,0); (0,4)], which has no three collinear
    points, the slow hull has the vertices 0, 1, 2 and the fast hull has
    the vertices 1, 2 only. *)
Theorem C2_triangle_hulls_differ (it : qint64) (h : list nat) :
  snd (computeSlowConvexHull triangle3 it h) = [0; 1; 2]
  /\ snd (computeGrahamScan triangle3 it h) = [1; 2].
Proof. vm_compute. split; reflexivity. Qed.

(** C3. On the square with its centre three filtered candidates remain and
    the stack sweep runs; the pivot is index 0, and the fast hull
    [1; 2; 3] starts at index 1. *)
Theorem C3_square_hull_starts_after_pivot (it : qint64) (h : list nat) :
  let pivot := fst (find_pivot square5 0%Z) in
  let idx := fst (graham_sorted square5 pivot 0%Z) in
  pivot = 0
  /\ fst (graham_filtered square5 pivot idx 0%Z) = [1; 2; 3]
  /\ hd_error (snd (computeGrahamScan square5 it h)) = Some 1.
Proof. vm_compute. repeat split. Qed.

(** C4. On [dent5] the slow hull is [0; 2; 3; 4; 1]; its triple (0, 2, 3)
    has orientation -6, a clockwise turn.  The fast hull of the same points
    has no clockwise turn. *)
Theorem C4_slow_hull_clockwise_turn (it : qint64) (h : list nat) :
  snd (computeSlowConvexHull dent5 it h) = [0; 2; 3; 4; 1]
  /\ Qeq (orientation dent5 (0, 2, 3)) (-6 # 1)%Q
  /\ no_clockwise_turn dent5 (snd (computeSlowConvexHull dent5 it h)) = false
  /\ no_clockwise_turn dent5 (snd (computeGrahamScan dent5 it h)) = true.
Proof. vm_compute. repeat split. Qed.

(** C5. Every index of the fast hull and of the slow hull is below the
    number of points (and, being a natural number, at least 0), and no
    index occurs twice in a hull.  The hull handed in is empty, as
    [runBothAlgorithms] leaves it before the two calls. *)
Theorem C5_hull_indices_valid_and_distinct (points : list QPointF) (it : qint64) :
  let fast := snd (computeGrahamScan points it []) in
  let slow := snd (computeSlowConvexHull points it []) in
  Forall (fun idx => idx < length points) fast /\ NoDup fast
  /\ Forall (fun idx => idx < length points) slow /\ NoDup slow.
Proof.
  intros fast slow.
  destruct (graham_body_sub points 0%Z) as [Hf1 Hf2].
  destruct (slow_hull_sub points it) as [Hs1 Hs2].
  assert (Ef : fast = fst (graham_body points 0%Z)).
  { unfold fast, computeGrahamScan. destruct (graham_body points 0%Z); reflexivity. }
  rewrite Ef. repeat split; try assumption.
  - apply Forall_forall. intros idx Hi. apply Hf1 in Hi. apply in_seq in Hi. lia.
  - apply Forall_forall. intros idx Hi. apply Hs1 in Hi. apply in_seq in Hi. lia.
Qed.

(** C6, as stated, fails: on one point entered three times the slow hull
    has three vertices. *)
Lemma C6_slow_hull_keeps_coincident_points :
  ~ (forall points it,
        3 <= length points -> all_coincide points ->
        length (snd (computeGrahamScan points it [])) <= 1
        /\ length (snd (computeSlowConvexHull points it [])) <= 1).
Proof.
  intro H.
  assert (Hall : all_coincide same3).
  { intros p q Hp Hq. simpl in Hp, Hq.
    destruct Hp as [<-|[<-|[<-|[]]]]; destruct Hq as [<-|[<-|[<-|[]]]];
      apply same_coords_refl. }
  destruct (H same3 0%Z (le_n 3) Hall) as [_ Hs].
  vm_compute in Hs. lia.
Qed.

(** C6, amended. When n >= 3 points all have the same coordinates, the fast
    hull has exactly one vertex and the slow hull holds every index
    0 .. n-1 once. *)
Theorem C6_coincident_points_hulls (points : list QPointF) (it : qint64)
  (outHull : list nat) :
  3 <= length points -> all_coincide points ->
  length (snd (computeGrahamScan points it outHull)) = 1
  /\ Permutation (snd (computeSlowConvexHull points it outHull))
                 (seq 0 (length points)).
Proof.
  intros Hn Hall. split.
  - unfold computeGrahamScan.
    assert (H := graham_coincide points 0%Z ltac:(lia) Hall).
    destruct (graham_body points 0%Z); exact H.
  - apply slow_coincide; assumption.
Qed.

Lemma C6_coincident_points_hulls_witness :
  3 <= length same3 /\ all_coincide same3
  /\ length (snd (computeGrahamScan same3 0%Z [])) = 1
  /\ Permutation (snd (computeSlowConvexHull same3 0%Z [])) (seq 0 (length same3)).
Proof.
  assert (Hall : all_coincide same3).
  { intros p q Hp Hq. simpl in Hp, Hq.
    destruct Hp as [<-|[<-|[<-|[]]]]; destruct Hq as [<-|[<-|[<-|[]]]];
      split; reflexivity. }
  split; [simpl; lia|]. split; [exact Hall|].
  apply (C6_coincident_points_hulls same3 0%Z []); [simpl; lia | exact Hall].
Defined.

(** C7. On the collinear points [(0,0); (1,1); (2,2)] the fast hull has at
    most two indices, each of them 0 or 2; the edge test of the slow hull
    sees neither a strictly positive nor a strictly negative side for any
    pair, records every pair, and the slow hull is the three indices in the
    order of their angle around the centroid. *)
Theorem C7_collinear_three (it : qint64) (h : list nat) :
  let fast := snd (computeGrahamScan line3 it h) in
  let slow := snd (computeSlowConvexHull line3 it h) in
  length fast <= 2
  /\ Forall (fun idx => idx = 0 \/ idx = 2) fast
  /\ Forall (fun ij => fst (side_scan line3 (fst ij) (snd ij) (seq 0 3) false false 0%Z)
                       = (false, false))
            [(0, 1); (0, 2); (1, 2)]
  /\ fst (slow_edges line3 0%Z) = [(0, 1); (0, 2); (1, 0); (1, 2); (2, 0); (2, 1)]
  /\ slow = [0; 1; 2]
  /\ slow = orderHullPoints (map (at_ line3) [0; 1; 2]) [0; 1; 2].
Proof.
  intros fast slow.
  assert (Ef : fast = [2]) by (vm_compute; reflexivity).
  assert (Es : slow = [0; 1; 2]) by (vm_compute; reflexivity).
  rewrite Ef, Es.
  split; [simpl; lia|].
  split; [constructor; [right; reflexivity | constructor]|].
  split; [repeat (constructor; [vm_compute; reflexivity|]); constructor|].
  split; [vm_compute; reflexivity|].
  split; [reflexivity | vm_compute; reflexivity].
Qed.

(** C8. A run gives the same outcome whatever the hulls and counters held
    before: it starts from empty hulls and zero counters.  With fewer than
    three points it ends there, having called neither algorithm. *)
Theorem C8_run_resets_then_short_circuits (pts : list QPointF)
  (hF hS : list nat) (iF iS : qint64) :
  runBothAlgorithms (mkWidget pts hF hS iF iS)
  = runBothAlgorithms (mkWidget pts [] [] 0%Z 0%Z)
  /\ (length pts < 3 ->
      runBothAlgorithms (mkWidget pts hF hS iF iS)
      = (mkWidget pts [] [] 0%Z 0%Z, [Call_update])).
Proof.
  split; [reflexivity|].
  intro Hlt. unfold runBothAlgorithms. cbn [clear_results points].
  destruct (Nat.ltb_spec (length pts) 3) as [_|H]; [reflexivity | lia].
Qed.

Lemma C8_run_resets_then_short_circuits_witness :
  length [pt 0 0; pt 5 5] < 3
  /\ runBothAlgorithms (mkWidget [pt 0 0; pt 5 5] [1; 0] [0; 1] 7%Z 9%Z)
     = (mkWidget [pt 0 0; pt 5 5] [] [] 0%Z 0%Z, [Call_update]).
Proof.
  split; [simpl; lia|].
  apply (C8_run_resets_then_short_circuits [pt 0 0; pt 5 5] [1; 0] [0; 1] 7%Z 9%Z).
  simpl; lia.
Defined.

(** C9. A run leaves the point sequence as it was: same length, same point
    at every index. *)
Theorem C9_run_keeps_points (w : DrawingWidget) :
  points (fst (runBothAlgorithms w)) = points w.
Proof.
  unfold runBothAlgorithms. cbn [clear_results points hullFast hullSlow
                                   iterationsFast iterationsSlow].
  destruct (length (points w) <? 3); [reflexivity|].
  destruct (computeGrahamScan (points w) 0%Z []) as [itF hF].
  destruct (computeSlowConvexHull (points w) 0%Z []) as [itS hS].
  reflexivity.
Qed.

(** C10. A left-button press appends the pressed position to the points,
    keeps the points already there, and leaves both hulls empty and both
    counters zero. *)
Theorem C10_left_press_appends_and_clears (w : DrawingWidget) (pos : QPointF) :
  mousePressEvent (mkEvent LeftButton pos) w
  = (mkWidget (points w ++ [pos]) [] [] 0%Z 0%Z, [Call_update]).
Proof. reflexivity. Qed.

(** * Further properties of the widget *)

(** ** Sequences of slot calls *)

Lemma run_slots_app (l1 l2 : list slot) (w : DrawingWidget) :
  run_slots (l1 ++ l2) w = run_slots l2 (run_slots l1 w).
Proof. apply fold_left_app. Qed.

(** A property kept by every slot holds after any sequence of slots. *)
Lemma run_slots_inv (P : DrawingWidget -> Prop) :
  (forall w s, P w -> P (do_slot w s)) ->
  forall l w, P w -> P (run_slots l w).
Proof.
  intros Hstep l. induction l as [|s l IH]; intros w Hw; simpl.
  - exact Hw.
  - apply IH. apply Hstep. exact Hw.
Qed.

Lemma computeGrahamScan_body (points : list QPointF) (it : qint64) (h : list nat) :
  computeGrahamScan points it h
  = (snd (graham_body points 0%Z), fst (graham_body points 0%Z)).
Proof. unfold computeGrahamScan. destruct (graham_body points 0%Z); reflexivity. Qed.

Lemma runBothAlgorithms_unfold (w : DrawingWidget) :
  runBothAlgorithms w
  = if length (points w) <? 3
    then (mkWidget (points w) [] [] 0%Z 0%Z, [Call_update])
    else (mkWidget (points w)
            (snd (computeGrahamScan (points w) 0%Z []))
            (snd (computeSlowConvexHull (points w) 0%Z []))
            (fst (computeGrahamScan (points w) 0%Z []))
            (fst (computeSlowConvexHull (points w) 0%Z [])),
          [Call_computeGrahamScan; Call_computeSlowConvexHull; Call_update]).
Proof.
  unfold runBothAlgorithms.
  cbn [clear_results points hullFast hullSlow iterationsFast iterationsSlow].
  destruct (length (points w) <? 3); [reflexivity|].
  destruct (computeGrahamScan (points w) 0%Z []) as [itF hF].
  destruct (computeSlowConvexHull (points w) 0%Z []) as [itS hS].
  reflexivity.
Qed.

Lemma run_points (w : DrawingWidget) : points (fst (runBothAlgorithms w)) = points w.
Proof.
  rewrite runBothAlgorithms_unfold. destruct (length (points w) <? 3); reflexivity.
Qed.

Lemma run_again (w : DrawingWidget) :
  runBothAlgorithms (fst (runBothAlgorithms w)) = runBothAlgorithms w.
Proof.
  rewrite (runBothAlgorithms_unfold (fst (runBothAlgorithms w))).
  rewrite run_points.
  rewrite (runBothAlgorithms_unfold w). reflexivity.
Qed.

(** Pressing Run a second time changes nothing: the second run returns the
    state and makes the calls of the first. *)
Theorem run_twice_same (w : DrawingWidget) :
  runBothAlgorithms (fst (runBothAlgorithms w)) = runBothAlgorithms w.
Proof. exact (run_again w). Qed.

(** A state is up to date when its results are cleared or are those of a
    run on its points. *)
Lemma do_slot_up_to_date (w : DrawingWidget) (s : slot) :
  results_cleared w \/ fst (runBothAlgorithms w) = w ->
  results_cleared (do_slot w s)
  \/ fst (runBothAlgorithms (do_slot w s)) = do_slot w s.
Proof.
  intro Hw. destruct s as [event| |]; simpl.
  - unfold mousePressEvent. destruct (button event); simpl;
      try exact Hw. left. repeat split.
  - left. repeat split.
  - right. rewrite run_again. reflexivity.
Qed.

(** From construction on, whatever is pressed and clicked, the hulls and
    counters shown are either cleared or exactly what a run computes from
    the current points: results of an older point set are never kept. *)
Theorem results_never_stale (l : list slot) :
  let w := run_slots l initial_widget in
  results_cleared w \/ fst (runBothAlgorithms w) = w.
Proof.
  apply (run_slots_inv
           (fun w => results_cleared w \/ fst (runBothAlgorithms w) = w)).
  - intros w s. apply do_slot_up_to_date.
  - left. repeat split.
Qed.

Lemma hull_valid_nil (points : list QPointF) : hull_valid points [].
Proof. split; constructor. Qed.

Lemma fast_hull_valid (points : list QPointF) (it : qint64) (h : list nat) :
  hull_valid points (snd (computeGrahamScan points it h)).
Proof.
  rewrite computeGrahamScan_body. cbn [snd].
  destruct (graham_body_sub points 0%Z) as [H1 H2]. split; [|exact H2].
  apply Forall_forall. intros idx Hi. apply H1 in Hi. apply in_seq in Hi. lia.
Qed.

Lemma slow_hull_valid (points : list QPointF) (it : qint64) :
  hull_valid points (snd (computeSlowConvexHull points it [])).
Proof.
  destruct (slow_hull_sub points it) as [H1 H2]. split; [|exact H2].
  apply Forall_forall. intros idx Hi. apply H1 in Hi. apply in_seq in Hi. lia.
Qed.

Lemma do_slot_valid (w : DrawingWidget) (s : slot) :
  hull_valid (points w) (hullFast w) /\ hull_valid (points w) (hullSlow w) ->
  hull_valid (points (do_slot w s)) (hullFast (do_slot w s))
  /\ hull_valid (points (do_slot w s)) (hullSlow (do_slot w s)).
Proof.
  intro Hw. destruct s as [event| |]; simpl.
  - unfold mousePressEvent. destruct (button event); simpl; try exact Hw;
      split; apply hull_valid_nil.
  - split; apply hull_valid_nil.
  - rewrite runBothAlgorithms_unfold.
    destruct (length (points w) <? 3); simpl.
    + split; apply hull_valid_nil.
    + split; [apply fast_hull_valid | apply slow_hull_valid].
Qed.

Lemma slots_keep_valid (l : list slot) :
  let w := run_slots l initial_widget in
  hull_valid (points w) (hullFast w) /\ hull_valid (points w) (hullSlow w).
Proof.
  apply (run_slots_inv
           (fun w => hull_valid (points w) (hullFast w)
                     /\ hull_valid (points w) (hullSlow w))).
  - intros w s. apply do_slot_valid.
  - split; apply hull_valid_nil.
Qed.

(** In every state the widget can reach, each entry of either hull indexes
    a point of the current point vector and occurs once. *)
Theorem reachable_hulls_valid (l : list slot) :
  let w := run_slots l initial_widget in
  hull_valid (points w) (hullFast w) /\ hull_valid (points w) (hullSlow w).
Proof. exact (slots_keep_valid l). Qed.

Lemma hull_polygon_some (points : list QPointF) (hull : list nat) :
  Forall (fun idx => idx < length points) hull ->
  hull_polygon points hull = Some (map (at_ points) hull).
Proof.
  induction 1 as [|idx hull Hidx _ IH]; simpl; [reflexivity|].
  rewrite IH.
  destruct (nth_error points idx) as [p|] eqn:E.
  - unfold at_. rewrite (nth_error_nth _ _ _ E). reflexivity.
  - apply nth_error_None in E. lia.
Qed.

Lemma paint_hull_some (c : color) (style : pen_style) (points : list QPointF)
  (hull : list nat) :
  Forall (fun idx => idx < length points) hull ->
  exists ops, paint_hull c style points hull = Some ops.
Proof.
  intro H. unfold paint_hull. destruct hull as [|idx hull]; [eauto|].
  rewrite (hull_polygon_some _ _ H). eauto.
Qed.

(** Painting never reads [points] outside its bounds, in any state the
    widget can reach. *)
Theorem paintEvent_in_bounds (l : list slot) :
  exists ops, paintEvent (run_slots l initial_widget) = Some ops.
Proof.
  destruct (slots_keep_valid l) as [[Hf _] [Hs _]].
  unfold paintEvent.
  destruct (paint_hull_some Red SolidLine _ _ Hs) as [so Eso].
  destruct (paint_hull_some Blue DashLine _ _ Hf) as [fo Efo].
  rewrite Eso, Efo. eauto.
Qed.

Lemma do_slot_points (w : DrawingWidget) (s : slot) :
  s <> Clear -> points (do_slot w s) = points w ++ left_position s.
Proof.
  intro Hs. destruct s as [event| |]; simpl.
  - unfold mousePressEvent. destruct (button event); simpl;
      rewrite ?app_nil_r; reflexivity.
  - congruence.
  - rewrite run_points, app_nil_r. reflexivity.
Qed.

(** The point vector is the list of positions of the left-button presses
    made since the last Clear, in the order they were made; Run and presses
    of other buttons add nothing. *)
Theorem points_are_left_presses (l1 l2 : list slot) (w : DrawingWidget) :
  Forall (fun s => s <> Clear) l2 ->
  points (run_slots l2 w) = points w ++ flat_map left_position l2
  /\ points (run_slots (l1 ++ Clear :: l2) w) = flat_map left_position l2.
Proof.
  intro Hl2.
  assert (G : forall w', points (run_slots l2 w')
                         = points w' ++ flat_map left_position l2).
  { induction Hl2 as [|s l2 Hs _ IH]; intro w'; simpl.
    - rewrite app_nil_r. reflexivity.
    - rewrite IH, do_slot_points by exact Hs. rewrite app_assoc. reflexivity. }
  split; [apply G|].
  rewrite run_slots_app. simpl. rewrite G. reflexivity.
Qed.

Lemma points_are_left_presses_witness :
  Forall (fun s => s <> Clear)
         [Press (mkEvent LeftButton (pt 1 2)); Run;
          Press (mkEvent RightButton (pt 9 9)); Press (mkEvent LeftButton (pt 3 4))]
  /\ points (run_slots
               ([Press (mkEvent LeftButton (pt 7 7))]
                  ++ Clear
                  :: [Press (mkEvent LeftButton (pt 1 2)); Run;
                      Press (mkEvent RightButton (pt 9 9));
                      Press (mkEvent LeftButton (pt 3 4))])
               initial_widget)
     = [pt 1 2; pt 3 4].
Proof.
  assert (H : Forall (fun s => s <> Clear)
                [Press (mkEvent LeftButton (pt 1 2)); Run;
                 Press (mkEvent RightButton (pt 9 9));
                 Press (mkEvent LeftButton (pt 3 4))]).
  { repeat constructor; discriminate. }
  split; [exact H|].
  exact (proj2 (points_are_left_presses
                  [Press (mkEvent LeftButton (pt 7 7))] _ initial_widget H)).
Defined.

(** ** The pivot *)

Lemma below_left_iff (p q : QPointF) :
  below_left p q = true
  <-> (py p < py q)%Q \/ ((py p == py q)%Q /\ (px p < px q)%Q).
Proof.
  unfold below_left.
  rewrite orb_true_iff, andb_true_iff, !Qltb_true_iff, Qeq_bool_iff. reflexivity.
Qed.

Lemma below_left_irrefl (p : QPointF) : below_left p p = false.
Proof.
  apply not_true_iff_false. rewrite below_left_iff.
  intros [H|[_ H]]; exact (Qlt_irrefl _ H).
Qed.

Lemma below_left_trans (p q r : QPointF) :
  below_left p q = true -> below_left q r = true -> below_left p r = true.
Proof.
  rewrite !below_left_iff.
  intros [H1|[E1 H1]] [H2|[E2 H2]].
  - left. Lqa.lra.
  - left. Lqa.lra.
  - left. Lqa.lra.
  - right. split; Lqa.lra.
Qed.

(** If [p] is below-left of [q] and [r] is not, then [p] is below-left of [r]. *)
Lemma below_left_neg_trans (p q r : QPointF) :
  below_left p q = true -> below_left r q = false -> below_left p r = true.
Proof.
  intros H1 H2. apply not_true_iff_false in H2.
  rewrite below_left_iff in *.
  destruct (Q_dec (py p) (py r)) as [[Hy|Hy]|Hy].
  - left; exact Hy.
  - exfalso. apply H2. destruct H1 as [H1|[E1 H1]]; left; Lqa.lra.
  - destruct (Qlt_le_dec (px p) (px r)) as [Hx|Hx]; [right; split; assumption|].
    exfalso. apply H2. destruct H1 as [H1|[E1 H1]].
    + left. Lqa.lra.
    + right. split; Lqa.lra.
Qed.

Lemma seq_split_bounds (a m : nat) (done : list nat) (x : nat) (rest : list nat) :
  seq a m = done ++ x :: rest ->
  (forall d, In d done -> a <= d < x) /\ a <= x < a + m.
Proof.
  revert a m. induction done as [|d done IH]; intros a m E.
  - destruct m as [|m]; [discriminate|]. simpl in E. injection E as Ex _.
    split; [intros d [] | lia].
  - destruct m as [|m]; [discriminate|]. simpl in E. injection E as Ed E.
    destruct (IH _ _ E) as [H1 H2]. split; [|lia].
    intros d' [Hd|Hd]; [subst; lia|]. specialize (H1 d' Hd). lia.
Qed.

Lemma find_pivot_spec (points : list QPointF) (c : qint64) :
  let pivot := fst (find_pivot points c) in
  pivot < Nat.max 1 (length points)
  /\ (forall i, i < length points ->
                below_left (at_ points i) (at_ points pivot) = false)
  /\ (forall i, i < pivot ->
                below_left (at_ points pivot) (at_ points i) = true).
Proof.
  unfold find_pivot.
  set (n := length points).
  assert (G : let pivot := fst (for_each (seq 1 (n - 1)) (pivot_step points) 0 c) in
              In pivot (0 :: seq 1 (n - 1))
              /\ (forall i, In i (0 :: seq 1 (n - 1)) ->
                            below_left (at_ points i) (at_ points pivot) = false)
              /\ (forall i, In i (0 :: seq 1 (n - 1)) -> i < pivot ->
                            below_left (at_ points pivot) (at_ points i) = true)).
  { apply (for_each_inv
             (fun done pivot =>
                In pivot (0 :: done)
                /\ (forall i, In i (0 :: done) ->
                              below_left (at_ points i) (at_ points pivot) = false)
                /\ (forall i, In i (0 :: done) -> i < pivot ->
                              below_left (at_ points pivot) (at_ points i) = true))).
    - intros done x rest pivot c' El [Hin [Hlow Hfirst]].
      destruct (seq_split_bounds _ _ _ _ _ El) as [Hdone Hx].
      assert (Hlt : forall i, In i (0 :: done) -> i < x).
      { intros i [Hi|Hi]; [subst; lia|]. specialize (Hdone i Hi). lia. }
      unfold pivot_step. rewrite bind_fst. cbn [tick ret fst snd].
      destruct (below_left (at_ points x) (at_ points pivot)) eqn:Eb.
      + split; [right; apply in_or_app; right; left; reflexivity|].
        split.
        * intros i Hi. change (In i ((0 :: done) ++ [x])) in Hi.
          apply in_app_or in Hi. destruct Hi as [Hi|[Hi|[]]].
          -- apply not_true_iff_false. intro Hix.
             pose proof (below_left_trans _ _ _ Hix Eb) as Ht.
             rewrite (Hlow i Hi) in Ht. discriminate.
          -- subst i. apply below_left_irrefl.
        * intros i Hi Hix. change (In i ((0 :: done) ++ [x])) in Hi.
          apply in_app_or in Hi. destruct Hi as [Hi|[Hi|[]]]; [|lia].
          eapply below_left_neg_trans; [exact Eb | apply Hlow; exact Hi].
      + split.
        { destruct Hin as [Hin|Hin]; [left; exact Hin|].
          right. apply in_or_app. left; exact Hin. }
        split.
        * intros i Hi. change (In i ((0 :: done) ++ [x])) in Hi.
          apply in_app_or in Hi. destruct Hi as [Hi|[Hi|[]]]; [auto|].
          subst i. exact Eb.
        * intros i Hi Hip. change (In i ((0 :: done) ++ [x])) in Hi.
          apply in_app_or in Hi. destruct Hi as [Hi|[Hi|[]]]; [auto|].
          subst i. specialize (Hlt pivot Hin). lia.
    - split; [left; reflexivity|]. split.
      + intros i [Hi|[]]. subst i. apply below_left_irrefl.
      + intros i [Hi|[]] Hlt. lia. }
  cbv zeta in G. destruct G as [Hin [Hlow Hfirst]].
  set (pivot := fst (for_each (seq 1 (n - 1)) (pivot_step points) 0 c)) in *.
  assert (Hmem : forall i, i < Nat.max 1 n -> In i (0 :: seq 1 (n - 1))).
  { intros i Hi. destruct i; [left; reflexivity|]. right. apply in_seq. lia. }
  cbv zeta. repeat split.
  - destruct Hin as [Hin|Hin]; [lia|]. apply in_seq in Hin. lia.
  - intros i Hi. apply Hlow, Hmem. lia.
  - intros i Hi. apply Hfirst; [|exact Hi].
    apply Hmem. destruct Hin as [Hin|Hin]; [lia|]. apply in_seq in Hin. lia.
Qed.

(** The pivot is an index of the lowest point, the leftmost of the lowest
    when several share the smallest y, and the first index of such a point:
    no point is below-left of it, and it is below-left of every point
    before it. *)
Theorem pivot_is_first_lowest (points : list QPointF) (c : qint64) :
  0 < length points ->
  let pivot := fst (find_pivot points c) in
  pivot < length points
  /\ (forall i, i < length points ->
                below_left (at_ points i) (at_ points pivot) = false)
  /\ (forall i, i < pivot ->
                below_left (at_ points pivot) (at_ points i) = true).
Proof.
  intros Hn pivot.
  destruct (find_pivot_spec points c) as [H1 [H2 H3]].
  fold pivot in H1, H2, H3. repeat split; [lia | exact H2 | exact H3].
Qed.

Lemma pivot_is_first_lowest_witness :
  0 < length square5
  /\ fst (find_pivot square5 0%Z) < length square5
  /\ (forall i, i < length square5 ->
                below_left (at_ square5 i)
                  (at_ square5 (fst (find_pivot square5 0%Z))) = false)
  /\ (forall i, i < fst (find_pivot square5 0%Z) ->
                below_left (at_ square5 (fst (find_pivot square5 0%Z)))
                  (at_ square5 i) = true).
Proof.
  split; [simpl; lia|].
  apply (pivot_is_first_lowest square5 0%Z). simpl; lia.
Defined.

(** ** The sort pins the pivot *)







(** ** The fast hull *)

(** Unless every point has the coordinates of the pivot, the pivot is not
    a vertex of the fast hull: the loop that builds [filtered] overwrites
    it with the next candidate. *)
Theorem fast_hull_never_has_pivot (points : list QPointF) (it : qint64)
  (h : list nat) (i : nat) :
  i < length points ->
  ~ same_coords (at_ points i) (at_ points (fst (find_pivot points 0%Z))) ->
  ~ In (fst (find_pivot points 0%Z)) (snd (computeGrahamScan points it h)).
Proof.
  intros Hi Hdiff. rewrite computeGrahamScan_body. cbn [snd].
  exact (fast_hull_misses_pivot points 0%Z i Hi Hdiff).
Qed.

Lemma fast_hull_never_has_pivot_witness :
  1 < length triangle3
  /\ ~ same_coords (at_ triangle3 1) (at_ triangle3 (fst (find_pivot triangle3 0%Z)))
  /\ ~ In (fst (find_pivot triangle3 0%Z)) (snd (computeGrahamScan triangle3 0%Z [])).
Proof.
  assert (Hd : ~ same_coords (at_ triangle3 1)
                 (at_ triangle3 (fst (find_pivot triangle3 0%Z)))).
  { intros [Hx _]. vm_compute in Hx. discriminate. }
  split; [simpl; lia|]. split; [exact Hd|].
  apply (fast_hull_never_has_pivot triangle3 0%Z [] 1); [simpl; lia | exact Hd].
Defined.




(** ** The edge test of the slow hull *)

Lemma eps_sides_exclusive (c : Q) : Qltb eps c = true -> Qltb c (- eps) = false.
Proof.
  rewrite Qltb_true_iff, Qltb_false_iff. intro H.
  assert (He : (0 < eps)%Q) by reflexivity.
  assert (Hn : (- eps < 0)%Q) by reflexivity.
  apply Qlt_le_weak. eapply Qlt_trans; [exact Hn|]. eapply Qlt_trans; eassumption.
Qed.

(** The early exit of the loop over [k] does not change its verdict. *)
Lemma side_scan_verdict (points : list QPointF) (i j : nat) (ks : list nat)
  (pos neg : bool) (c : qint64) :
  let r := fst (side_scan points i j ks pos neg c) in
  fst r && snd r
  = (pos || existsb (strictly_left points i j) ks)
    && (neg || existsb (strictly_right points i j) ks).
Proof.
  revert pos neg c. induction ks as [|k ks IH]; intros pos neg c.
  - simpl. rewrite !orb_false_r. reflexivity.
  - cbn [side_scan existsb]. unfold strictly_left at 1, strictly_right at 1.
    destruct ((k =? i) || (k =? j)).
    + cbn [negb andb orb]. apply IH.
    + cbn [negb andb]. rewrite bind_fst. cbn [tick fst snd].
      set (cr := cross (at_ points i) (at_ points j) (at_ points k)).
      destruct (Qltb eps cr) eqn:Ea.
      * rewrite (eps_sides_exclusive _ Ea). cbn [orb andb].
        destruct neg.
        -- cbn [andb ret fst snd orb]. rewrite orb_true_r. reflexivity.
        -- cbn [andb]. rewrite IH. cbn [orb]. rewrite orb_true_r. reflexivity.
      * destruct (Qltb cr (- eps)) eqn:Eb.
        -- cbn [orb]. destruct pos.
           ++ cbn [andb ret fst snd orb]. rewrite orb_true_r. reflexivity.
           ++ cbn [andb]. rewrite IH. cbn [orb]. rewrite orb_true_r. reflexivity.
        -- cbn [orb]. destruct (pos && neg) eqn:Epn.
           ++ apply andb_true_iff in Epn. destruct Epn as [-> ->]. reflexivity.
           ++ apply IH.
Qed.

Lemma pair_step_one_sided (points : list QPointF) (i j : nat)
  (edges : list (nat * nat)) (c : qint64) :
  fst (pair_step points i j edges c)
  = if one_sided points i j
    then set_insert pair_ltb (j, i) (set_insert pair_ltb (i, j) edges)
    else edges.
Proof.
  unfold pair_step, one_sided. rewrite bind_fst.
  rewrite (side_scan_verdict points i j (seq 0 (length points)) false false c).
  cbn [orb]. destruct (negb _); reflexivity.
Qed.

Lemma pair_loop_exact (points : list QPointF) (i : nat) (js : list nat)
  (edges : list (nat * nat)) (c : qint64) (e : nat * nat) :
  In e (fst (for_each js (pair_step points i) edges c))
  <-> In e edges
      \/ exists j, In j js /\ one_sided points i j = true
                   /\ (e = (i, j) \/ e = (j, i)).
Proof.
  revert e.
  apply (for_each_inv
           (fun done edges' =>
              forall e, In e edges'
                        <-> In e edges
                            \/ exists j, In j done /\ one_sided points i j = true
                                         /\ (e = (i, j) \/ e = (j, i)))).
  - intros done x rest s c' _ IH e.
    rewrite pair_step_one_sided.
    destruct (one_sided points i x) eqn:Eo.
    + rewrite !edge_insert_In, IH. split.
      * intros [He|[He|[He|[j [Hj H]]]]].
        -- right. exists x. split; [apply in_or_app; right; left; reflexivity|auto].
        -- right. exists x. split; [apply in_or_app; right; left; reflexivity|auto].
        -- left; exact He.
        -- right. exists j. split; [apply in_or_app; left; exact Hj | exact H].
      * intros [He|[j [Hj [Ho He]]]]; [auto|].
        apply in_app_or in Hj. destruct Hj as [Hj|[Hj|[]]].
        -- right; right; right. exists j. auto.
        -- subst j. destruct He; auto.
    + rewrite IH. split.
      * intros [He|[j [Hj H]]]; [auto|].
        right. exists j. split; [apply in_or_app; left; exact Hj | exact H].
      * intros [He|[j [Hj [Ho He]]]]; [auto|].
        apply in_app_or in Hj. destruct Hj as [Hj|[Hj|[]]].
        -- right. exists j. auto.
        -- subst j. congruence.
  - intro e. split; [auto|]. intros [H|[j [[] _]]]. exact H.
Qed.

Lemma slow_edges_pairs (points : list QPointF) (c : qint64) (e : nat * nat) :
  In e (fst (slow_edges points c))
  <-> exists i j, i < j /\ j < length points /\ one_sided points i j = true
                  /\ (e = (i, j) \/ e = (j, i)).
Proof.
  unfold slow_edges. set (n := length points).
  assert (G : forall e,
             In e (fst (for_each (seq 0 n)
                          (fun i edges =>
                             for_each (seq (i + 1) (n - (i + 1)))
                               (pair_step points i) edges) [] c))
             <-> exists i, In i (seq 0 n)
                           /\ exists j, In j (seq (i + 1) (n - (i + 1)))
                                        /\ one_sided points i j = true
                                        /\ (e = (i, j) \/ e = (j, i))).
  { apply (for_each_inv
             (fun done edges' =>
                forall e, In e edges'
                          <-> exists i, In i done
                                        /\ exists j, In j (seq (i + 1) (n - (i + 1)))
                                                     /\ one_sided points i j = true
                                                     /\ (e = (i, j) \/ e = (j, i)))).
    - intros done x rest s c' _ IH e'.
      rewrite pair_loop_exact, IH. split.
      + intros [[i [Hi H]]|H].
        * exists i. split; [apply in_or_app; left; exact Hi | exact H].
        * exists x. split; [apply in_or_app; right; left; reflexivity | exact H].
      + intros [i [Hi H]]. apply in_app_or in Hi. destruct Hi as [Hi|[Hi|[]]].
        * left. exists i. auto.
        * subst i. right. exact H.
    - intro e'. split; [intros [] | intros [i [[] _]]]. }
  rewrite G. split.
  - intros [i [Hi [j [Hj H]]]]. apply in_seq in Hi. apply in_seq in Hj.
    exists i, j. repeat split; try lia; apply H.
  - intros [i [j [Hij [Hj H]]]].
    exists i. split; [apply in_seq; lia|].
    exists j. split; [apply in_seq; lia | exact H].
Qed.

Lemma existsb_seq_iff (f : nat -> bool) (n : nat) :
  existsb f (seq 0 n) = true <-> exists k, k < n /\ f k = true.
Proof.
  rewrite existsb_exists. split; intros [k [Hk Hf]]; exists k; split; auto.
  - apply in_seq in Hk. lia.
  - apply in_seq. lia.
Qed.

Lemma one_sided_iff (points : list QPointF) (i j : nat) :
  one_sided points i j = true
  <-> ~ exists k k',
          k < length points /\ k' < length points
          /\ k <> i /\ k <> j /\ k' <> i /\ k' <> j
          /\ (eps < cross (at_ points i) (at_ points j) (at_ points k))%Q
          /\ (cross (at_ points i) (at_ points j) (at_ points k') < - eps)%Q.
Proof.
  unfold one_sided. rewrite negb_true_iff, <- not_true_iff_false.
  rewrite andb_true_iff, !existsb_seq_iff.
  unfold strictly_left, strictly_right.
  split; intros H Hex; apply H.
  - destruct Hex as [k [k' [Hk [Hk' [H1 [H2 [H3 [H4 [Ha Hb]]]]]]]]].
    split.
    + exists k. split; [exact Hk|].
      apply andb_true_iff. split; [|apply Qltb_true_iff; exact Ha].
      apply negb_true_iff, orb_false_iff. split; apply Nat.eqb_neq; assumption.
    + exists k'. split; [exact Hk'|].
      apply andb_true_iff. split; [|apply Qltb_true_iff; exact Hb].
      apply negb_true_iff, orb_false_iff. split; apply Nat.eqb_neq; assumption.
  - destruct Hex as [[k [Hk Ha]] [k' [Hk' Hb]]].
    apply andb_true_iff in Ha. destruct Ha as [Hn Ha].
    apply andb_true_iff in Hb. destruct Hb as [Hn' Hb].
    apply negb_true_iff, orb_false_iff in Hn. destruct Hn as [H1 H2].
    apply negb_true_iff, orb_false_iff in Hn'. destruct Hn' as [H3 H4].
    apply Nat.eqb_neq in H1, H2, H3, H4.
    apply Qltb_true_iff in Ha, Hb.
    exists k, k'. repeat split; assumption.
Qed.

Lemma slow_edges_member (points : list QPointF) (c : qint64) (a b : nat) :
  In (a, b) (fst (slow_edges points c))
  <-> a <> b /\ a < length points /\ b < length points
      /\ ~ exists k k',
             k < length points /\ k' < length points
             /\ k <> Nat.min a b /\ k <> Nat.max a b
             /\ k' <> Nat.min a b /\ k' <> Nat.max a b
             /\ (eps < cross (at_ points (Nat.min a b)) (at_ points (Nat.max a b))
                         (at_ points k))%Q
             /\ (cross (at_ points (Nat.min a b)) (at_ points (Nat.max a b))
                   (at_ points k') < - eps)%Q.
Proof.
  rewrite slow_edges_pairs, <- one_sided_iff. split.
  - intros [i [j [Hij [Hj [Ho [He|He]]]]]]; injection He as -> ->.
    + rewrite Nat.min_l, Nat.max_r by lia. repeat split; try lia. exact Ho.
    + rewrite Nat.min_r, Nat.max_l by lia. repeat split; try lia. exact Ho.
  - intros [Hab [Ha [Hb Ho]]].
    destruct (Nat.lt_ge_cases a b) as [Hlt|Hge].
    + rewrite Nat.min_l, Nat.max_r in Ho by lia.
      exists a, b. repeat split; auto.
    + rewrite Nat.min_r, Nat.max_l in Ho by lia.
      exists b, a. repeat split; auto. lia.
Qed.

(** The edge set of the slow hull holds [(a, b)] exactly when [a] and [b]
    are two different indices of points and no two other points lie
    strictly (by more than 1e-9) on opposite sides of the line from the
    smaller index to the larger: the early exit loses nothing, both
    directions are recorded and no pair of an index with itself is. *)
Theorem slow_edges_exact (points : list QPointF) (c : qint64) (a b : nat) :
  In (a, b) (fst (slow_edges points c))
  <-> a <> b /\ a < length points /\ b < length points
      /\ ~ exists k k',
             k < length points /\ k' < length points
             /\ k <> Nat.min a b /\ k <> Nat.max a b
             /\ k' <> Nat.min a b /\ k' <> Nat.max a b
             /\ (eps < cross (at_ points (Nat.min a b)) (at_ points (Nat.max a b))
                         (at_ points k))%Q
             /\ (cross (at_ points (Nat.min a b)) (at_ points (Nat.max a b))
                   (at_ points k') < - eps)%Q.
Proof. apply slow_edges_member. Qed.

Lemma slow_edges_sym (points : list QPointF) (c : qint64) (a b : nat) :
  In (a, b) (fst (slow_edges points c)) -> In (b, a) (fst (slow_edges points c)).
Proof.
  rewrite !slow_edges_pairs.
  intros [i [j [Hij [Hj [Ho He]]]]].
  exists i, j. repeat split; auto.
  destruct He as [He|He]; injection He as -> ->; auto.
Qed.

Lemma slow_hull_vertices_of (points : list QPointF) (it : qint64) (h : list nat)
  (v : nat) :
  3 <= length points ->
  h = [] \/ (exists e, In e (fst (slow_edges points 0%Z))) ->
  (In v (snd (computeSlowConvexHull points it h))
   <-> exists u, In (v, u) (fst (slow_edges points 0%Z))).
Proof.
  intros Hn Hh. unfold computeSlowConvexHull.
  destruct (Nat.ltb_spec (length points) 3) as [H|_]; [lia|].
  pose proof (slow_edges_sym points 0%Z) as Hsym.
  destruct (slow_edges points 0%Z) as [edges it'] eqn:Ee. cbn [fst] in *.
  destruct (collect_verts_spec edges) as [_ Hin].
  assert (Hv : forall v, In v (collect_verts edges) <-> exists u, In (v, u) edges).
  { intro v'. rewrite Hin. split.
    - intros [[a b] [He [Hv|Hv]]]; simpl in Hv; subst v'.
      + exists b. exact He.
      + exists a. apply Hsym. exact He.
    - intros [u Hu]. exists (v', u). split; [exact Hu | left; reflexivity]. }
  destruct (collect_verts edges) as [|v0 verts] eqn:Ev.
  { cbn [snd]. destruct Hh as [->|[[a b] He]].
    - split; [intros [] | intro Hu; destruct (proj2 (Hv v) Hu)].
    - destruct (proj2 (Hv a) (ex_intro _ b He)). }
  rewrite <- Ev in *. cbn [snd].
  rewrite <- Hv. split; apply Permutation_in.
  - apply orderHullPoints_perm. apply length_map.
  - symmetry. apply orderHullPoints_perm. apply length_map.
Qed.

(** For three points or more, the vertices of the slow hull are exactly
    the end points of the recorded edges. *)
Theorem slow_hull_vertices (points : list QPointF) (it : qint64) (v : nat) :
  3 <= length points ->
  (In v (snd (computeSlowConvexHull points it []))
   <-> exists u, In (v, u) (fst (slow_edges points 0%Z))).
Proof.
  intro Hn. apply slow_hull_vertices_of; [exact Hn | left; reflexivity].
Qed.

Lemma slow_hull_vertices_witness :
  3 <= length triangle3
  /\ (In 0 (snd (computeSlowConvexHull triangle3 0%Z []))
      <-> exists u, In (0, u) (fst (slow_edges triangle3 0%Z))).
Proof.
  split; [simpl; lia|].
  apply (slow_hull_vertices triangle3 0%Z 0). simpl; lia.
Defined.

(** ** The order produced by orderHullPoints *)

Section SortedByKey.
Context {A : Type} (key : A -> R) (comp : A -> A -> Counted bool).
Hypothesis comp_key :
  forall a b c, fst (comp a b c) = true <-> (key a < key b)%R.






End SortedByKey.




(** [orderHullPoints] only rearranges the indices it is given, when there
    is one index per point. *)
Theorem orderHullPoints_rearranges (pts : list QPointF) (indices : list nat) :
  length pts = length indices ->
  Permutation (orderHullPoints pts indices) indices.
Proof. apply orderHullPoints_perm. Qed.

Lemma orderHullPoints_rearranges_witness :
  length square5 = length [4; 3; 2; 1; 0]
  /\ Permutation (orderHullPoints square5 [4; 3; 2; 1; 0]) [4; 3; 2; 1; 0].
Proof.
  split; [reflexivity|].
  apply (orderHullPoints_rearranges square5 [4; 3; 2; 1; 0]). reflexivity.
Defined.

(** ** The iteration counters *)

Lemma ticked_add (a b : nat) (c : qint64) : ticked (a + b) c = ticked b (ticked a c).
Proof. unfold ticked. rewrite Nat.add_comm. apply Nat.iter_add. Qed.

Lemma tick_ticked (c : qint64) : snd (tick c) = ticked 1 c.
Proof. reflexivity. Qed.

Lemma wrap64_small (z : Z) : (- 2 ^ 63 <= z < 2 ^ 63)%Z -> wrap64 z = z.
Proof. intro H. unfold wrap64. rewrite Z.mod_small; lia. Qed.

(** Below 2^63 increments the counter has not wrapped. *)
Lemma ticked_small (k : nat) : (Z.of_nat k < 2 ^ 63)%Z -> ticked k 0%Z = Z.of_nat k.
Proof.
  induction k as [|k IH]; intro Hk; [reflexivity|].
  unfold ticked in *. rewrite Nat.iter_succ. rewrite IH by lia.
  cbn [tick snd]. rewrite wrap64_small; lia.
Qed.

(** A loop whose round on [x] ticks at most [w x] times ticks at most the
    sum of the [w x]. *)
Lemma for_each_ticks {A S : Type} (w : A -> nat) (body : A -> S -> Counted S)
  (l : list A) :
  (forall x s c, In x l -> exists k, k <= w x /\ snd (body x s c) = ticked k c) ->
  forall s c, exists k, k <= list_sum (map w l)
                        /\ snd (for_each l body s c) = ticked k c.
Proof.
  induction l as [|x l IH]; intros Hbody s c.
  - exists 0. split; [simpl; lia | reflexivity].
  - simpl. rewrite bind_snd.
    destruct (Hbody x s c (or_introl eq_refl)) as [k1 [Hk1 E1]].
    destruct (IH (fun y s' c' Hy => Hbody y s' c' (or_intror Hy))
                (fst (body x s c)) (snd (body x s c))) as [k2 [Hk2 E2]].
    exists (k1 + k2). split; [lia|].
    rewrite E2, E1, ticked_add. reflexivity.
Qed.

(** A loop whose every round ticks once ticks once per element. *)
Lemma for_each_ticks_once {A S : Type} (body : A -> S -> Counted S) (l : list A) :
  (forall x s c, snd (body x s c) = ticked 1 c) ->
  forall s c, snd (for_each l body s c) = ticked (length l) c.
Proof.
  intro Hbody. induction l as [|x l IH]; intros s c; [reflexivity|].
  simpl for_each. rewrite bind_snd, IH, Hbody.
  change (length (x :: l)) with (1 + length l). rewrite ticked_add. reflexivity.
Qed.

(** The pivot loop increments the counter once for each point after the
    first. *)
Theorem find_pivot_ticks (points : list QPointF) (c : qint64) :
  snd (find_pivot points c) = ticked (length points - 1) c.
Proof.
  unfold find_pivot. rewrite for_each_ticks_once.
  - rewrite length_seq. reflexivity.
  - intros x s c'. unfold pivot_step. rewrite bind_snd. reflexivity.
Qed.

Lemma side_scan_ticks (points : list QPointF) (i j : nat) (ks : list nat)
  (pos neg : bool) (c : qint64) :
  exists k, k <= length (filter (third_point i j) ks)
            /\ snd (side_scan points i j ks pos neg c) = ticked k c.
Proof.
  revert pos neg c. induction ks as [|k0 ks IH]; intros pos neg c.
  - exists 0. split; [simpl; lia | reflexivity].
  - cbn [side_scan filter]. unfold third_point at 1.
    destruct ((k0 =? i) || (k0 =? j)); cbn [negb].
    + apply IH.
    + rewrite bind_snd. cbn [fst].
      match goal with
      | |- context [if ?b then ret ?r else _] => destruct b
      end.
      * exists 1. split; [simpl; lia | reflexivity].
      * match goal with
        | |- context [side_scan points i j ks ?p ?q (snd (tick c))] =>
            destruct (IH p q (snd (tick c))) as [k [Hk E]]
        end.
        exists (1 + k). split; [simpl; lia|].
        rewrite E, ticked_add. reflexivity.
Qed.

Lemma filter_split_length {A : Type} (f : A -> bool) (l : list A) :
  length (filter f l) + length (filter (fun x => negb (f x)) l) = length l.
Proof.
  induction l as [|x l IH]; [reflexivity|].
  simpl. destruct (f x); simpl; lia.
Qed.

Lemma third_points_count (i j n : nat) :
  i < j -> j < n -> length (filter (third_point i j) (seq 0 n)) = n - 2.
Proof.
  intros Hij Hj.
  pose proof (filter_split_length (third_point i j) (seq 0 n)) as Hsplit.
  rewrite length_seq in Hsplit.
  set (rest := filter (fun x => negb (third_point i j x)) (seq 0 n)) in *.
  assert (Hin : forall x, In x rest <-> x = i \/ x = j).
  { intro x. unfold rest. rewrite filter_In, in_seq.
    unfold third_point. rewrite negb_involutive, orb_true_iff, !Nat.eqb_eq.
    split; [tauto|]. intros [->| ->]; split; auto; lia. }
  assert (Hle : length rest <= 2).
  { apply (NoDup_incl_length (l' := [i; j])).
    - apply NoDup_filter, seq_NoDup.
    - intros x Hx. apply Hin in Hx. destruct Hx; subst; simpl; auto. }
  assert (Hge : 2 <= length rest).
  { apply (NoDup_incl_length (l := [i; j])).
    - constructor; [intros [H|[]]; lia | constructor; [intros [] | constructor]].
    - intros x [Hx|[Hx|[]]]; apply Hin; auto. }
  lia.
Qed.

Lemma pair_step_ticks (points : list QPointF) (i j : nat)
  (edges : list (nat * nat)) (c : qint64) :
  i < j -> j < length points ->
  exists k, k <= length points - 2
            /\ snd (pair_step points i j edges c) = ticked k c.
Proof.
  intros Hij Hj. unfold pair_step. rewrite bind_snd.
  destruct (side_scan_ticks points i j (seq 0 (length points)) false false c)
    as [k [Hk E]].
  rewrite third_points_count in Hk by assumption.
  exists k. split; [exact Hk|].
  destruct (negb _); exact E.
Qed.

Lemma list_sum_const (w n : nat) (l : list nat) :
  length l = n -> list_sum (map (fun _ => w) l) = w * n.
Proof.
  intros <-. induction l as [|x l IH]; simpl; [lia|]. rewrite IH. lia.
Qed.

Lemma pairs_sum (n : nat) :
  2 * list_sum (map (fun i => n - (i + 1)) (seq 0 n)) = n * (n - 1).
Proof.
  induction n as [|n IH]; [reflexivity|].
  rewrite seq_S, map_app, list_sum_app. cbn [map list_sum].
  replace (S n - (0 + n + 1)) with 0 by lia.
  assert (E : map (fun i => S n - (i + 1)) (seq 0 n)
              = map (fun i => S (n - (i + 1))) (seq 0 n)).
  { apply map_ext_in. intros i Hi. apply in_seq in Hi. lia. }
  rewrite E.
  assert (E2 : forall l, list_sum (map (fun i => S (n - (i + 1))) l)
                         = length l + list_sum (map (fun i => n - (i + 1)) l)).
  { induction l as [|x l IHl]; simpl; [reflexivity|]. rewrite IHl. lia. }
  rewrite E2, length_seq.
  set (total := list_sum (map (fun i => n - (i + 1)) (seq 0 n))) in *.
  destruct n as [|n']; [simpl in *; lia|].
  replace (S n' - 1) with n' in IH by lia.
  replace (S (S n') - 1) with (S n') by lia.
  clearbody total. clear E E2. change (list_sum [0]) with 0. nia.
Qed.

Lemma slow_edges_ticks (points : list QPointF) (c : qint64) :
  exists k, 2 * k <= length points * (length points - 1) * (length points - 2)
            /\ snd (slow_edges points c) = ticked k c.
Proof.
  unfold slow_edges. set (n := length points).
  destruct (for_each_ticks
              (fun i => (n - 2) * (n - (i + 1)))
              (fun i edges =>
                 for_each (seq (i + 1) (n - (i + 1))) (pair_step points i) edges)
              (seq 0 n)) with (s := @nil (nat * nat)) (c := c) as [k [Hk E]].
  { intros i edges c' Hi. apply in_seq in Hi.
    destruct (for_each_ticks (fun _ => n - 2) (pair_step points i)
                (seq (i + 1) (n - (i + 1)))) with (s := edges) (c := c')
      as [k [Hk E]].
    - intros j s c'' Hjin. apply in_seq in Hjin.
      apply pair_step_ticks; fold n; lia.
    - exists k. split; [|exact E].
      rewrite (list_sum_const (n - 2) (n - (i + 1))) in Hk by apply length_seq.
      exact Hk. }
  exists k. split; [|exact E].
  assert (Hs : list_sum (map (fun i => (n - 2) * (n - (i + 1))) (seq 0 n))
               = (n - 2) * list_sum (map (fun i => n - (i + 1)) (seq 0 n))).
  { generalize (seq 0 n). induction l as [|x l IHl]; simpl; [lia|].
    rewrite IHl. lia. }
  rewrite Hs in Hk. pose proof (pairs_sum n) as Hp. nia.
Qed.

(** The slow counter ends between 0 and n(n-1)(n-2)/2, one increment at
    most for each pair of points and third point, when the number n of
    points is below 2^20 (so that 64 bits do not wrap). *)
Theorem slow_iterations_bound (points : list QPointF) (it : qint64) (h : list nat) :
  (Z.of_nat (length points) < 2 ^ 20)%Z ->
  let n := Z.of_nat (length points) in
  let iterations := fst (computeSlowConvexHull points it h) in
  (0 <= iterations /\ 2 * iterations <= n * (n - 1) * (n - 2))%Z.
Proof.
  intros Hn n iterations. unfold iterations, computeSlowConvexHull.
  destruct (Nat.ltb_spec (length points) 3) as [Hlt|Hge].
  { cbn [fst]. unfold n. split; [lia|].
    destruct (length points) as [|[|[|m]]]; simpl; lia. }
  destruct (slow_edges_ticks points 0%Z) as [k [Hk E]].
  destruct (slow_edges points 0%Z) as [edges it'] eqn:Ee. cbn [snd] in E.
  assert (Hit : fst (match collect_verts edges with
                     | [] => (it', h)
                     | _ :: _ =>
                         (it', orderHullPoints (map (at_ points) (collect_verts edges))
                                 (collect_verts edges))
                     end) = it').
  { destruct (collect_verts edges); reflexivity. }
  rewrite Hit, E.
  assert (Hkz : (2 * Z.of_nat k <= n * (n - 1) * (n - 2))%Z).
  { unfold n.
    replace (Z.of_nat (length points) - 1)%Z with (Z.of_nat (length points - 1)) by lia.
    replace (Z.of_nat (length points) - 2)%Z with (Z.of_nat (length points - 2)) by lia.
    rewrite <- !Nat2Z.inj_mul. change 2%Z with (Z.of_nat 2).
    rewrite <- Nat2Z.inj_mul. apply Nat2Z.inj_le. exact Hk. }
  assert (Hsmall : (Z.of_nat k < 2 ^ 63)%Z).
  { assert (n * (n - 1) * (n - 2) < 2 ^ 60)%Z; [|lia].
    assert (0 <= n)%Z by (unfold n; lia).
    change (2 ^ 60)%Z with (2 ^ 20 * 2 ^ 20 * 2 ^ 20)%Z.
    assert (3 <= n)%Z by (unfold n; lia).
    nia. }
  rewrite ticked_small by exact Hsmall. lia.
Qed.

Lemma slow_iterations_bound_witness :
  (Z.of_nat (length square5) < 2 ^ 20)%Z
  /\ (0 <= fst (computeSlowConvexHull square5 0%Z [])
      /\ 2 * fst (computeSlowConvexHull square5 0%Z [])
         <= Z.of_nat (length square5) * (Z.of_nat (length square5) - 1)
            * (Z.of_nat (length square5) - 2))%Z.
Proof.
  split; [simpl; lia|].
  apply (slow_iterations_bound square5 0%Z []). simpl; lia.
Defined.

(** ** The lowest point is a vertex of the slow hull *)

Lemma cross_swap (p q k : QPointF) : (cross q p k == - cross p q k)%Q.
Proof. unfold cross. ring. Qed.

Lemma cross_base (p q : QPointF) : (cross p q p == 0)%Q.
Proof. unfold cross. ring. Qed.

(** [k] is not below-left of [p]: it is higher, or level and not to the left. *)
Lemma not_below_left (k p : QPointF) :
  below_left k p = false ->
  (py p <= py k)%Q /\ ((py k <= py p)%Q -> (px p <= px k)%Q).
Proof.
  intro H. apply not_true_iff_false in H. rewrite below_left_iff in H.
  split.
  - apply Qnot_lt_le. intro Hlt. apply H. left; exact Hlt.
  - intro Hle. apply Qnot_lt_le. intro Hlt. apply H.
    destruct (Qlt_le_dec (py k) (py p)) as [Hy|Hy]; [left; exact Hy|].
    right. split; [apply Qle_antisym; assumption | exact Hlt].
Qed.

(** Turning counter-clockwise is transitive among points that are not
    below-left of [p], through a point that differs from [p]. *)
Lemma cross_chain (p a b c : QPointF) :
  below_left a p = false -> below_left b p = false -> below_left c p = false ->
  ~ same_coords b p ->
  (0 <= cross p a b)%Q -> (0 <= cross p b c)%Q -> (0 <= cross p a c)%Q.
Proof.
  intros Ha Hb Hc Hbp Hab Hbc.
  apply not_below_left in Ha, Hb, Hc.
  destruct Ha as [Ha1 Ha2], Hb as [Hb1 Hb2], Hc as [Hc1 Hc2].
  unfold cross in *. unfold same_coords in Hbp.
  set (ax := (px a - px p)%Q) in *. set (ay := (py a - py p)%Q) in *.
  set (bx := (px b - px p)%Q) in *. set (by_ := (py b - py p)%Q) in *.
  set (cx := (px c - px p)%Q) in *. set (cy := (py c - py p)%Q) in *.
  assert (Hay : (0 <= ay)%Q) by (unfold ay; Lqa.lra).
  assert (Hby : (0 <= by_)%Q) by (unfold by_; Lqa.lra).
  assert (Hcy : (0 <= cy)%Q) by (unfold cy; Lqa.lra).
  destruct (Qlt_le_dec 0 by_) as [Hpos|Hzero].
  - assert (Hid : (by_ * (ax * cy - ay * cx)
                   == ay * (bx * cy - by_ * cx) + cy * (ax * by_ - ay * bx))%Q) by ring.
    assert (H1 : (0 <= ay * (bx * cy - by_ * cx))%Q) by (apply Qmult_le_0_compat; assumption).
    assert (H2 : (0 <= cy * (ax * by_ - ay * bx))%Q) by (apply Qmult_le_0_compat; assumption).
    assert (H3 : (0 <= by_ * (ax * cy - ay * cx))%Q) by (rewrite Hid; Lqa.lra).
    destruct (Qlt_le_dec (ax * cy - ay * cx) 0) as [Hneg|Hok]; [|exact Hok].
    exfalso.
    assert (H4 : (by_ * (ax * cy - ay * cx) < 0)%Q).
    { setoid_replace (by_ * (ax * cy - ay * cx))%Q
        with (- (by_ * - (ax * cy - ay * cx)))%Q by ring.
      assert (0 < by_ * - (ax * cy - ay * cx))%Q.
      { apply Qmult_lt_0_compat; [exact Hpos | Lqa.lra]. }
      Lqa.lra. }
    Lqa.lra.
  - assert (Hby0 : (by_ == 0)%Q) by Lqa.lra.
    assert (Hbx : (0 < bx)%Q).
    { assert (0 <= bx)%Q by (unfold bx, by_ in *; Lqa.lra).
      destruct (Qlt_le_dec 0 bx) as [H'|H']; [exact H'|].
      exfalso. apply Hbp. unfold bx, by_ in *. split; Lqa.lra. }
    assert (Hay0 : (ay == 0)%Q).
    { assert (Hm : (0 <= - (ay * bx))%Q).
      { setoid_replace (- (ay * bx))%Q with (ax * by_ - ay * bx)%Q;
          [exact Hab | rewrite Hby0; ring]. }
      destruct (Qlt_le_dec 0 ay) as [H'|H']; [|Lqa.lra].
      exfalso. assert (0 < ay * bx)%Q by (apply Qmult_lt_0_compat; assumption).
      Lqa.lra. }
    assert (Hax : (0 <= ax)%Q) by (unfold ax, ay in *; Lqa.lra).
    setoid_replace (ax * cy - ay * cx)%Q with (ax * cy)%Q by (rewrite Hay0; ring).
    apply Qmult_le_0_compat; assumption.
Qed.

Lemma cross_twice (p a : QPointF) : (cross p a a == 0)%Q.
Proof. unfold cross. ring. Qed.

Lemma cross_flip (p a b : QPointF) : (cross p b a == - cross p a b)%Q.
Proof. unfold cross. ring. Qed.

Lemma same_coords_dec (a b : QPointF) : {same_coords a b} + {~ same_coords a b}.
Proof.
  unfold same_coords.
  destruct (Qeq_dec (px a) (px b)); destruct (Qeq_dec (py a) (py b)); tauto.
Qed.

(** Among points none of which is below-left of [p] there is one from
    which every other is reached by turning counter-clockwise, or not
    turning, about [p]. *)
Lemma exists_first_turn (points : list QPointF) (p : QPointF) (l : list nat) :
  l <> [] ->
  (forall k, In k l -> below_left (at_ points k) p = false) ->
  exists q, In q l
            /\ forall k, In k l -> (0 <= cross p (at_ points q) (at_ points k))%Q.
Proof.
  induction l as [|a l IH]; intros Hne Hup; [congruence|].
  destruct l as [|b l'].
  - exists a. split; [left; reflexivity|].
    intros k [<-|[]]. rewrite cross_twice. apply Qle_refl.
  - destruct IH as [q [Hq Hmin]]; [discriminate | intros k Hk; apply Hup; right; exact Hk|].
    destruct (same_coords_dec p (at_ points q)) as [Hsame|Hdiff].
    + exists q. split; [right; exact Hq|].
      intros k _. rewrite (cross_same _ _ (at_ points k) Hsame). apply Qle_refl.
    + destruct (Qlt_le_dec (cross p (at_ points a) (at_ points q)) 0) as [Hneg|Hok].
      * exists q. split; [right; exact Hq|].
        intros k [<-|Hk]; [|apply Hmin; exact Hk].
        rewrite cross_flip. Lqa.lra.
      * exists a. split; [left; reflexivity|].
        intros k [<-|Hk]; [rewrite cross_twice; apply Qle_refl|].
        apply (cross_chain p (at_ points a) (at_ points q) (at_ points k)).
        -- apply Hup. left; reflexivity.
        -- apply Hup. right; exact Hq.
        -- apply Hup. right; exact Hk.
        -- intros [Hx Hy]. apply Hdiff. split; symmetry; assumption.
        -- exact Hok.
        -- apply Hmin. exact Hk.
Qed.

(** With two points or more the pivot is an end point of a recorded edge. *)
Lemma pivot_has_edge (points : list QPointF) (c c' : qint64) :
  2 <= length points ->
  exists q, In (fst (find_pivot points c), q) (fst (slow_edges points c')).
Proof.
  intro Hn. set (p := fst (find_pivot points c)).
  destruct (find_pivot_spec points c) as [Hp [Hlow _]]. fold p in Hp, Hlow.
  assert (Hpn : p < length points) by lia.
  set (l := filter (fun k => negb (k =? p)) (seq 0 (length points))).
  assert (Hl : forall k, In k l <-> k < length points /\ k <> p).
  { intro k. unfold l. rewrite filter_In, in_seq, negb_true_iff, Nat.eqb_neq. lia. }
  destruct (exists_first_turn points (at_ points p) l) as [q [Hq Hmin]].
  - assert (Hin : In (if p =? 0 then 1 else 0) l).
    { apply Hl. destruct (Nat.eqb_spec p 0); lia. }
    intro E. rewrite E in Hin. destruct Hin.
  - intros k Hk. apply Hlow. apply Hl in Hk. lia.
  - apply Hl in Hq. destruct Hq as [Hqn Hqp].
    assert (Hall : forall k, k < length points ->
                             (0 <= cross (at_ points p) (at_ points q) (at_ points k))%Q).
    { intros k Hk. destruct (Nat.eq_dec k p) as [->|Hkp].
      - rewrite cross_base. apply Qle_refl.
      - apply Hmin. apply Hl. lia. }
    assert (He : (0 < eps)%Q) by reflexivity.
    exists q. apply slow_edges_member.
    repeat split; try lia.
    intros [k [k' [Hk [Hk' [_ [_ [_ [_ [Ha Hb]]]]]]]]].
    destruct (Nat.lt_ge_cases p q) as [Hlt|Hge].
    + rewrite Nat.min_l, Nat.max_r in Hb by lia.
      specialize (Hall k' Hk'). Lqa.lra.
    + rewrite Nat.min_r, Nat.max_l in Ha by lia.
      specialize (Hall k Hk). rewrite cross_swap in Ha. Lqa.lra.
Qed.

Lemma two_members_length {A : Type} (a b : A) (l : list A) :
  In a l -> In b l -> a <> b -> 2 <= length l.
Proof.
  intros Ha Hb Hab. destruct l as [|x [|y l]].
  - destruct Ha.
  - destruct Ha as [Ha|[]], Hb as [Hb|[]]. congruence.
  - simpl. lia.
Qed.

Lemma slow_hull_lowest (points : list QPointF) (it : qint64) (h : list nat) :
  3 <= length points ->
  In (fst (find_pivot points 0%Z)) (snd (computeSlowConvexHull points it h))
  /\ 2 <= length (snd (computeSlowConvexHull points it h)).
Proof.
  intro Hn.
  destruct (pivot_has_edge points 0%Z 0%Z ltac:(lia)) as [q Hq].
  assert (Hex : h = [] \/ exists e, In e (fst (slow_edges points 0%Z))).
  { right. eexists. exact Hq. }
  assert (Hp : In (fst (find_pivot points 0%Z))
                 (snd (computeSlowConvexHull points it h))).
  { apply (slow_hull_vertices_of points it h _ Hn Hex). exists q. exact Hq. }
  split; [exact Hp|].
  apply (two_members_length (fst (find_pivot points 0%Z)) q); [exact Hp | |].
  - apply (slow_hull_vertices_of points it h _ Hn Hex).
    exists (fst (find_pivot points 0%Z)). apply slow_edges_sym. exact Hq.
  - apply slow_edges_member in Hq. tauto.
Qed.

(** For three points or more the slow hull is never empty: it has at
    least two vertices, and the pivot (the lowest point, leftmost among the
    lowest) is one of them.  The early return on an empty vertex set is
    never taken. *)
Theorem slow_hull_has_lowest_point (points : list QPointF) (it : qint64)
  (h : list nat) :
  3 <= length points ->
  In (fst (find_pivot points 0%Z)) (snd (computeSlowConvexHull points it h))
  /\ 2 <= length (snd (computeSlowConvexHull points it h)).
Proof. apply slow_hull_lowest. Qed.

Lemma slow_hull_has_lowest_point_witness :
  3 <= length line3
  /\ In (fst (find_pivot line3 0%Z)) (snd (computeSlowConvexHull line3 0%Z [7]))
  /\ 2 <= length (snd (computeSlowConvexHull line3 0%Z [7])).
Proof.
  split; [simpl; lia|].
  apply (slow_hull_has_lowest_point line3 0%Z [7]). simpl; lia.
Defined.

(** For three points or more that do not all have the same coordinates,
    the two hulls never have the same vertices: the pivot is a vertex of
    the slow hull and is not a vertex of the fast hull. *)
Theorem hulls_disagree_on_pivot (points : list QPointF) (it : qint64) (i : nat) :
  3 <= length points ->
  i < length points ->
  ~ same_coords (at_ points i) (at_ points (fst (find_pivot points 0%Z))) ->
  In (fst (find_pivot points 0%Z)) (snd (computeSlowConvexHull points it []))
  /\ ~ In (fst (find_pivot points 0%Z)) (snd (computeGrahamScan points it [])).
Proof.
  intros Hn Hi Hdiff. split.
  - apply slow_hull_lowest. exact Hn.
  - rewrite computeGrahamScan_body. cbn [snd].
    exact (fast_hull_misses_pivot points 0%Z i Hi Hdiff).
Qed.

Lemma hulls_disagree_on_pivot_witness :
  3 <= length square5
  /\ 2 < length square5
  /\ ~ same_coords (at_ square5 2) (at_ square5 (fst (find_pivot square5 0%Z)))
  /\ In (fst (find_pivot square5 0%Z)) (snd (computeSlowConvexHull square5 0%Z []))
  /\ ~ In (fst (find_pivot square5 0%Z)) (snd (computeGrahamScan square5 0%Z [])).
Proof.
  assert (Hd : ~ same_coords (at_ square5 2)
                 (at_ square5 (fst (find_pivot square5 0%Z)))).
  { intros [Hx _]. vm_compute in Hx. discriminate. }
  split; [simpl; lia|]. split; [simpl; lia|]. split; [exact Hd|].
  apply (hulls_disagree_on_pivot square5 0%Z 2); [simpl; lia | simpl; lia | exact Hd].
Defined.

(** ** The fast hull is not empty *)

Lemma filter_loop_nonempty (points : list QPointF) (pivot : nat) (p0 : QPointF)
  (idx : list nat) (c : qint64) :
  idx <> [] -> fst (for_each idx (filter_step points pivot p0) [] c) <> [].
Proof.
  intro Hne.
  assert (G : fst (for_each idx (filter_step points pivot p0) [] c) = [] -> idx = []).
  { apply (for_each_inv (fun (done : list nat) f => f = [] -> done = [])).
    - intros done x rest f c' _ IH E.
      destruct f as [|last tl]; [discriminate E|].
      destruct (filter_step_cases points pivot p0 x (last :: tl) c') as [E'|[E'|E']];
        rewrite E' in E; discriminate.
    - reflexivity. }
  intro E. apply Hne, G, E.
Qed.

Lemma sweep_loop_nonempty (points : list QPointF) (rest st : list nat) (c : qint64) :
  st <> [] -> fst (for_each rest (sweep_step points) st c) <> [].
Proof.
  intro Hst.
  apply (for_each_inv (fun (done : list nat) st' => st' <> [])); [|exact Hst].
  intros done x rest' s c' _ _. unfold sweep_step. rewrite bind_fst. discriminate.
Qed.

(** For at least one point the fast hull has at least one vertex. *)
Theorem fast_hull_nonempty (points : list QPointF) (it : qint64) (h : list nat) :
  0 < length points -> snd (computeGrahamScan points it h) <> [].
Proof.
  intro Hn. rewrite computeGrahamScan_body. cbn [snd].
  unfold graham_body, graham_filtered. rewrite !bind_fst, !bind_snd.
  set (pivot := fst (find_pivot points 0%Z)).
  set (c1 := snd (find_pivot points 0%Z)).
  set (idx := fst (graham_sorted points pivot c1)).
  set (c2 := snd (graham_sorted points pivot c1)).
  set (f := fst (for_each idx _ [] c2)).
  set (c3 := snd (for_each idx _ [] c2)).
  change (fst (ret (rev f) c3)) with (rev f).
  change (snd (ret (rev f) c3)) with c3.
  assert (Hidx : idx <> []).
  { intro E. pose proof (graham_sorted_perm points pivot c1) as Hp.
    fold idx in Hp. rewrite E in Hp. apply Permutation_length in Hp.
    rewrite length_seq in Hp. simpl in Hp. lia. }
  assert (Hf : rev f <> []).
  { intro E. apply (filter_loop_nonempty points pivot (at_ points pivot) idx c2 Hidx).
    fold f. rewrite <- (rev_involutive f), E. reflexivity. }
  destruct (length (rev f) <? 3); [exact Hf|].
  destruct (rev f) as [|f0 [|f1 rest]] eqn:Ef; try exact Hf.
  rewrite bind_fst. cbn [ret fst].
  intro E. apply (sweep_loop_nonempty points rest [f1; f0] c3); [discriminate|].
  rewrite <- (rev_involutive (fst _)), E. reflexivity.
Qed.

Lemma fast_hull_nonempty_witness :
  0 < length same3 /\ snd (computeGrahamScan same3 0%Z []) <> [].
Proof.
  split; [simpl; lia|].
  apply (fast_hull_nonempty same3 0%Z []). simpl; lia.
Defined.
